(** * es-query-builder: the QueryBuilder class of src/index.ts

    The builder owns one reference to a mutable JavaScript object (the
    "query object") and every method reads or writes through that
    reference.  The embedding therefore has two layers:

    - [JS]: the fragment of JavaScript the class runs on: values, a heap of
      plain objects and arrays addressed by reference, strict-mode property
      reads and writes, [Array.prototype.push], and [JSON.stringify];
    - [QB]: the class itself, one definition per method, in a state and
      exception monad over the heap.

    [Doc] describes the document a chain of calls builds as the specification
    words it; [Rep] says when a heap holds such a document, [Shape] what a
    mutator needs of a document supplied by the caller, [Run] how the class
    is run and observed.  [Facts] relates the two descriptions, and
    [Properties] states what is proved of the class.  [Laws] and [Further]
    go on to whole chains, to the constructor's corner cases and to more
    than one builder. *)

From Stdlib Require Import ZArith Ascii String DecimalString.
From stdpp Require Import base list strings.

Local Open Scope string_scope.
Local Open Scope list_scope.

(** ** The JavaScript fragment *)
Module JS.

Abbreviation loc := nat (only parsing).

(** Language values.  A [number] is restricted to the integers: the builder
    only stores and prints numbers (counts, sizes, offsets), it never
    calculates with them.  A string is a sequence of code units below 256.
    Documents are plain data: functions, symbols and bigints do not occur. *)
Inductive val :=
| VUndefined
| VNull
| VBool (b : bool)
| VNumber (n : Z)
| VString (s : string)
| VRef (l : loc).

(** Own enumerable string-keyed data properties, in property order.  The keys
    the builder adds are never array indices, so a new key goes last. *)
Abbreviation props := (list (string * val)) (only parsing).

(** A heap object is a plain object or an array; an array carries its
    elements and, as in JavaScript, may carry named properties too. *)
Inductive obj :=
| Obj (ps : props)
| Arr (elems : list val) (ps : props).

Abbreviation heap := (list obj) (only parsing).

Inductive error := TypeError | RangeError.

Inductive completion (A : Type) :=
| Normal (a : A)
| Throw (e : error).
Arguments Normal {A} a.
Arguments Throw {A} e.

(** State survives an exception: a caller may catch it and go on. *)
Definition M (A : Type) : Type := heap -> completion A * heap.

Definition ret {A} (a : A) : M A := fun h => (Normal a, h).
Definition throw {A} (e : error) : M A := fun h => (Throw e, h).
Definition bind {A B} (m : M A) (k : A -> M B) : M B :=
  fun h => match m h with
           | (Normal a, h') => k a h'
           | (Throw e, h') => (Throw e, h')
           end.

Declare Scope js_scope.
Delimit Scope js_scope with js.
Notation "'let!' x ':=' c 'in' k" := (bind c (fun x => k))
  (at level 10, x name, c at level 100, k at level 200) : js_scope.
Notation "c ;;; k" := (bind c (fun _ => k))
  (at level 100, k at level 200, right associativity) : js_scope.

(** ToBoolean *)
Definition ToBoolean (v : val) : bool :=
  match v with
  | VUndefined | VNull => false
  | VBool b => b
  | VNumber n => negb (n =? 0)%Z
  | VString s => negb (String.eqb s "")
  | VRef _ => true
  end.

Fixpoint assoc (k : string) (ps : props) : option val :=
  match ps with
  | [] => None
  | (k', v) :: ps' => if String.eqb k k' then Some v else assoc k ps'
  end.

(** [o.k = v] on the property list: an existing key keeps its position, a
    new key is added at the end. *)
Fixpoint set_prop (k : string) (v : val) (ps : props) : props :=
  match ps with
  | [] => [(k, v)]
  | (k', v') :: ps' =>
      if String.eqb k k' then (k', v) :: ps' else (k', v') :: set_prop k v ps'
  end.

Definition own_props (o : obj) : props :=
  match o with Obj ps => ps | Arr _ ps => ps end.

(** [v.k] for the names the builder reads ([query], [bool], [should], [must],
    [sort]), as an own-property lookup: none of them is an array index or
    [length], and none is inherited from a built-in prototype except [sort]
    on an array.  That one is a function; the only place that reads [sort]
    calls [push] on what it read, and a function has no [push] any more than
    [undefined] has, so the call throws TypeError either way and the read is
    given as [undefined].  Reading a property of [undefined] or [null]
    throws; of another primitive it gives [undefined]. *)
Definition GetV (h : heap) (v : val) (k : string) : completion val :=
  match v with
  | VUndefined | VNull => Throw TypeError
  | VBool _ | VNumber _ | VString _ => Normal VUndefined
  | VRef l =>
      match h !! l with
      | Some o => Normal (default VUndefined (assoc k (own_props o)))
      | None => Throw TypeError
      end
  end.

Definition get (v : val) (k : string) : M val :=
  fun h => (GetV h v k, h).

(** [v.k = x] in strict mode (class bodies are strict): throws on
    [undefined], [null] and on every primitive; on an object or array it
    defines or overwrites the own property. *)
Definition put (v : val) (k : string) (x : val) : M unit :=
  fun h =>
    match v with
    | VRef l =>
        match h !! l with
        | Some (Obj ps) => (Normal tt, <[l := Obj (set_prop k x ps)]> h)
        | Some (Arr es ps) => (Normal tt, <[l := Arr es (set_prop k x ps)]> h)
        | None => (Throw TypeError, h)
        end
    | _ => (Throw TypeError, h)
    end.

(** Allocation of an object or array literal; the new reference is the next
    free location. *)
Definition alloc (o : obj) : M val :=
  fun h => (Normal (VRef (List.length h)), h ++ [o]).

(** What [base.push] evaluates to: the built-in method on an array that does
    not shadow it with an own property, nothing callable otherwise (the
    heap holds no function values). *)
Inductive method := ArrayPush (l : loc) | NotCallable.

Definition GetMethod_push (h : heap) (base : val) : completion method :=
  match base with
  | VUndefined | VNull => Throw TypeError
  | VBool _ | VNumber _ | VString _ => Normal NotCallable
  | VRef l =>
      match h !! l with
      | Some (Arr _ ps) =>
          match assoc "push" ps with
          | None => Normal (ArrayPush l)
          | Some _ => Normal NotCallable
          end
      | Some (Obj _) => Normal NotCallable
      | None => Throw TypeError
      end
  end.

Definition array_push (l : loc) (x : val) : M val :=
  fun h =>
    match h !! l with
    | Some (Arr es ps) =>
        (Normal (VNumber (Z.of_nat (S (List.length es)))), <[l := Arr (es ++ [x]) ps]> h)
    | _ => (Throw TypeError, h)
    end.

(** The call [base.push(arg)]: the callee is looked up first, then the
    argument is evaluated, then the call is made or fails. *)
Definition call_push (base : val) (arg : M val) : M val :=
  (let! f := (fun h => (GetMethod_push h base, h)) in
   let! x := arg in
   match f with
   | ArrayPush l => array_push l x
   | NotCallable => throw TypeError
   end)%js.

(** [xs.forEach(f)] over an argument array of the caller. *)
Fixpoint forEach {A} (xs : list A) (f : A -> M unit) : M unit :=
  match xs with
  | [] => ret tt
  | x :: xs' => (f x ;;; forEach xs' f)%js
  end.

(** *** JSON.stringify *)

#[local] Set Warnings "-register-all".

(** The plain-data view of a value: what [JSON.stringify] walks through. *)
Inductive tree :=
| TUndefined
| TNull
| TBool (b : bool)
| TNumber (n : Z)
| TString (s : string)
| TObject (members : list (string * tree))
| TArray (elems : list tree).

Fixpoint walk_members (w : val -> completion tree) (ps : props)
  : completion (list (string * tree)) :=
  match ps with
  | [] => Normal []
  | (k, x) :: ps' =>
      match w x with
      | Throw e => Throw e
      | Normal t =>
          match walk_members w ps' with
          | Throw e => Throw e
          | Normal ts => Normal ((k, t) :: ts)
          end
      end
  end.

Fixpoint walk_elements (w : val -> completion tree) (es : list val)
  : completion (list tree) :=
  match es with
  | [] => Normal []
  | x :: es' =>
      match w x with
      | Throw e => Throw e
      | Normal t =>
          match walk_elements w es' with
          | Throw e => Throw e
          | Normal ts => Normal (t :: ts)
          end
      end
  end.

(** The walk of SerializeJSONProperty: own properties of objects in order,
    elements of arrays by index (named properties of an array are not
    visited); an object met again below itself is a cycle and throws
    TypeError.  [fuel] bounds the depth; running out of it is reported as
    RangeError. *)
Fixpoint walk (fuel : nat) (h : heap) (stack : list loc) (v : val)
  : completion tree :=
  match v with
  | VUndefined => Normal TUndefined
  | VNull => Normal TNull
  | VBool b => Normal (TBool b)
  | VNumber n => Normal (TNumber n)
  | VString s => Normal (TString s)
  | VRef l =>
      match fuel with
      | O => Throw RangeError
      | S fuel' =>
          if bool_decide (l ∈ stack) then Throw TypeError else
          match h !! l with
          | None => Throw TypeError
          | Some (Obj ps) =>
              match walk_members (walk fuel' h (l :: stack)) ps with
              | Throw e => Throw e
              | Normal ms => Normal (TObject ms)
              end
          | Some (Arr es _) =>
              match walk_elements (walk fuel' h (l :: stack)) es with
              | Throw e => Throw e
              | Normal ts => Normal (TArray ts)
              end
          end
      end
  end.

(** A path without a repeated object is no longer than the heap. *)
Definition snapshot (h : heap) (v : val) : completion tree :=
  walk (S (List.length h)) h [] v.

Definition dquote : ascii := "034"%char.
Definition backslash : ascii := "092"%char.

Definition hex_digit (n : nat) : ascii :=
  match n with
  | 0 => "0" | 1 => "1" | 2 => "2" | 3 => "3" | 4 => "4" | 5 => "5"
  | 6 => "6" | 7 => "7" | 8 => "8" | 9 => "9" | 10 => "a" | 11 => "b"
  | 12 => "c" | 13 => "d" | 14 => "e" | _ => "f"
  end%char.

(** QuoteJSONString, one code unit at a time. *)
Definition escape_char (c : ascii) : string :=
  let n := nat_of_ascii c in
  if Nat.eqb n 8 then String backslash "b"
  else if Nat.eqb n 9 then String backslash "t"
  else if Nat.eqb n 10 then String backslash "n"
  else if Nat.eqb n 12 then String backslash "f"
  else if Nat.eqb n 13 then String backslash "r"
  else if Nat.eqb n 34 then String backslash (String dquote "")
  else if Nat.eqb n 92 then String backslash (String backslash "")
  else if Nat.ltb n 32 then
    String backslash
      (String "u" (String "0" (String "0"
         (String (hex_digit (n / 16)) (String (hex_digit (n mod 16)) "")))))
  else String c "".

Fixpoint escape (s : string) : string :=
  match s with
  | EmptyString => ""
  | String c s' => escape_char c +:+ escape s'
  end.

Definition QuoteJSONString (s : string) : string :=
  String dquote (escape s +:+ String dquote "").

(** Number::toString for an integer: its decimal digits.  (From 10^21 on
    JavaScript switches to exponent notation; counts and offsets stay far
    below.) *)
Definition Number_toString (n : Z) : string :=
  NilZero.string_of_int (Z.to_int n).

Fixpoint join (sep : string) (xs : list string) : string :=
  match xs with
  | [] => ""
  | [x] => x
  | x :: xs' => x +:+ sep +:+ join sep xs'
  end.

Definition render_members (r : tree -> option string)
  : list (string * tree) -> list string :=
  fix members ms :=
    match ms with
    | [] => []
    | (k, t) :: ms' =>
        match r t with
        | None => members ms'
        | Some s => (QuoteJSONString k +:+ ":" +:+ s) :: members ms'
        end
    end.

Definition render_elements (r : tree -> option string)
  : list tree -> list string :=
  fix elements ts :=
    match ts with
    | [] => []
    | t :: ts' => default "null" (r t) :: elements ts'
    end.

(** The text of a value; [None] is JavaScript's [undefined] result.  An
    object member whose value has no text is left out, an array element
    without text prints as [null]. *)
Fixpoint render (t : tree) : option string :=
  match t with
  | TUndefined => None
  | TNull => Some "null"
  | TBool true => Some "true"
  | TBool false => Some "false"
  | TNumber n => Some (Number_toString n)
  | TString s => Some (QuoteJSONString s)
  | TObject ms => Some ("{" +:+ join "," (render_members render ms) +:+ "}")
  | TArray ts => Some ("[" +:+ join "," (render_elements render ts) +:+ "]")
  end.

Definition JSON_stringify (h : heap) (v : val) : completion val :=
  match snapshot h v with
  | Throw e => Throw e
  | Normal t =>
      Normal (match render t with Some s => VString s | None => VUndefined end)
  end.

End JS.

(** ** The class *)
Module QB.
Import JS.
Local Open Scope js_scope.

(** [type SortDirection = 'desc' | 'asc'] *)
Inductive SortDirection := desc | asc.

Definition SortDirection_string (d : SortDirection) : string :=
  match d with desc => "desc" | asc => "asc" end.

(** An element of the argument of [mustShouldMatch]. *)
Record term := { key : string; value : string }.

(** The instance: its one field.  No method assigns it after construction. *)
Record QueryBuilder := { queryObject : val }.

(** Object and array literals.  A literal's parts are allocated before the
    literal itself here; references are only ever compared for identity, so
    the numbering of fresh locations is not observable. *)
Definition new_object (ps : props) : M val := alloc (Obj ps).
Definition new_array (es : list val) : M val := alloc (Arr es []).

(** [constructor(query?)]: an omitted argument is [VUndefined]. *)
Definition constructor (query : val) : M QueryBuilder :=
  if ToBoolean query then ret {| queryObject := query |}
  else
    let! should := new_array [] in
    let! must := new_array [] in
    let! bool := new_object [("should", should); ("must", must)] in
    let! q := new_object [("bool", bool)] in
    let! sort := new_array [] in
    let! doc := new_object [("query", q); ("sort", sort)] in
    ret {| queryObject := doc |}.

Definition build (this : QueryBuilder) : M val :=
  ret (queryObject this).

Definition shouldPrefix (this : QueryBuilder) (key value : string)
  : M QueryBuilder :=
  let! q := get (queryObject this) "query" in
  let! b := get q "bool" in
  let! s := get b "should" in
  call_push s (let! o := new_object [(key, VString value)] in
               new_object [("prefix", o)]) ;;;
  ret this.

Definition shouldTerm (this : QueryBuilder) (key value : string)
  : M QueryBuilder :=
  let! q := get (queryObject this) "query" in
  let! b := get q "bool" in
  let! s := get b "should" in
  call_push s (let! o := new_object [(key, VString value)] in
               new_object [("term", o)]) ;;;
  ret this.

Definition shouldWildcard (this : QueryBuilder) (key value : string)
  : M QueryBuilder :=
  let! q := get (queryObject this) "query" in
  let! b := get q "bool" in
  let! s := get b "should" in
  call_push s (let! o := new_object [(key, VString ("*" +:+ value +:+ "*"))] in
               new_object [("wildcard", o)]) ;;;
  ret this.

Definition shouldMatch (this : QueryBuilder) (key value : string)
  : M QueryBuilder :=
  let! q := get (queryObject this) "query" in
  let! b := get q "bool" in
  let! s := get b "should" in
  call_push s (let! o := new_object [(key, VString value)] in
               new_object [("match", o)]) ;;;
  ret this.

Definition mustWildcard (this : QueryBuilder) (key value : string)
  : M QueryBuilder :=
  let! q := get (queryObject this) "query" in
  let! b := get q "bool" in
  let! m := get b "must" in
  call_push m (let! o := new_object [(key, VString ("*" +:+ value +:+ "*"))] in
               new_object [("wildcard", o)]) ;;;
  ret this.

Definition mustMatch (this : QueryBuilder) (key value : string)
  : M QueryBuilder :=
  let! q := get (queryObject this) "query" in
  let! b := get q "bool" in
  let! m := get b "must" in
  call_push m (let! o := new_object [(key, VString value)] in
               new_object [("match", o)]) ;;;
  ret this.

Definition mustShouldMatch (this : QueryBuilder) (terms : list term)
  : M QueryBuilder :=
  let! arr := new_array [] in
  let! inner := new_object [("should", arr)] in
  let! shouldQuery := new_object [("bool", inner)] in
  forEach terms (fun term =>
    let! b := get shouldQuery "bool" in
    let! s := get b "should" in
    call_push s (let! o := new_object [(key term, VString (value term))] in
                 new_object [("match", o)]) ;;;
    ret tt) ;;;
  let! q := get (queryObject this) "query" in
  let! b := get q "bool" in
  let! m := get b "must" in
  call_push m (ret shouldQuery) ;;;
  ret this.

Definition mustTerm (this : QueryBuilder) (key value : string)
  : M QueryBuilder :=
  let! q := get (queryObject this) "query" in
  let! b := get q "bool" in
  let! m := get b "must" in
  call_push m (let! o := new_object [(key, VString value)] in
               new_object [("term", o)]) ;;;
  ret this.

Definition ofType (this : QueryBuilder) (type : string) : M QueryBuilder :=
  let! q := get (queryObject this) "query" in
  let! b := get q "bool" in
  let! m := get b "must" in
  call_push m (let! o := new_object [("type", VString type)] in
               new_object [("term", o)]) ;;;
  ret this.

Definition mustPrefix (this : QueryBuilder) (key value : string)
  : M QueryBuilder :=
  let! q := get (queryObject this) "query" in
  let! b := get q "bool" in
  let! m := get b "must" in
  call_push m (let! o := new_object [(key, VString value)] in
               new_object [("prefix", o)]) ;;;
  ret this.

Definition minimumShouldMatch (this : QueryBuilder) (count : Z)
  : M QueryBuilder :=
  let! q := get (queryObject this) "query" in
  let! b := get q "bool" in
  put b "minimum_should_match" (VNumber count) ;;;
  ret this.

(** [sort(attribute, direction = 'desc')]: an omitted direction is [None]. *)
Definition sort (this : QueryBuilder) (attribute : string)
  (direction : option SortDirection) : M QueryBuilder :=
  let direction := default desc direction in
  let! s := get (queryObject this) "sort" in
  call_push s
    (let! o := new_object [("order", VString (SortDirection_string direction))] in
     new_object [(attribute, o)]) ;;;
  ret this.

(** [size(size = 20)] *)
Definition size (this : QueryBuilder) (size : option Z) : M QueryBuilder :=
  let size := default 20%Z size in
  put (queryObject this) "size" (VNumber size) ;;;
  ret this.

(** [from(from = 0)] *)
Definition from (this : QueryBuilder) (from : option Z) : M QueryBuilder :=
  let from := default 0%Z from in
  put (queryObject this) "from" (VNumber from) ;;;
  ret this.

Definition toString (this : QueryBuilder) : M val :=
  fun h => (JSON_stringify h (queryObject this), h).

(** *** Chains of mutator calls *)

Inductive call :=
| CshouldPrefix (key value : string)
| CshouldTerm (key value : string)
| CshouldWildcard (key value : string)
| CshouldMatch (key value : string)
| CmustWildcard (key value : string)
| CmustMatch (key value : string)
| CmustShouldMatch (terms : list term)
| CmustTerm (key value : string)
| CofType (type : string)
| CmustPrefix (key value : string)
| CminimumShouldMatch (count : Z)
| Csort (attribute : string) (direction : option SortDirection)
| Csize (size : option Z)
| Cfrom (from : option Z).

Definition invoke (c : call) (this : QueryBuilder) : M QueryBuilder :=
  match c with
  | CshouldPrefix k v => shouldPrefix this k v
  | CshouldTerm k v => shouldTerm this k v
  | CshouldWildcard k v => shouldWildcard this k v
  | CshouldMatch k v => shouldMatch this k v
  | CmustWildcard k v => mustWildcard this k v
  | CmustMatch k v => mustMatch this k v
  | CmustShouldMatch ts => mustShouldMatch this ts
  | CmustTerm k v => mustTerm this k v
  | CofType t => ofType this t
  | CmustPrefix k v => mustPrefix this k v
  | CminimumShouldMatch n => minimumShouldMatch this n
  | Csort a d => sort this a d
  | Csize n => size this n
  | Cfrom n => from this n
  end.

(** [b.c1(..).c2(..)...]: each call is made on what the one before
    returned; an exception ends the chain. *)
Fixpoint chain (cs : list call) (this : QueryBuilder) : M QueryBuilder :=
  match cs with
  | [] => ret this
  | c :: cs' => let! this' := invoke c this in chain cs' this'
  end.

End QB.

(** ** The document as a function of the calls made

    A second, purely functional description of what a chain of calls builds,
    written from the specification's words (section 4.1 and the document shape
    of section 6); the theorems below compare the heap the class produces
    with it. *)
Module Doc.
Import JS QB.

(** A clause: [{kind: {key: value}}], or the nested
    [{bool: {should: [{match: {key: value}}, ...]}}]. *)
Inductive clause :=
| Leaf (kind key value : string)
| Nested (terms : list term).

Definition leaf_tree (kind key value : string) : tree :=
  TObject [(kind, TObject [(key, TString value)])].

Definition match_tree (t : term) : tree :=
  leaf_tree "match" (key t) (value t).

Definition clause_tree (c : clause) : tree :=
  match c with
  | Leaf kind k v => leaf_tree kind k v
  | Nested ts =>
      TObject [("bool", TObject [("should", TArray (map match_tree ts))])]
  end.

(** The field of the document a mutator is for. *)
Inductive field :=
| Should | Must | MinimumShouldMatch | Sort | Size | From.

Definition designated (c : call) : field :=
  match c with
  | CshouldPrefix _ _ | CshouldTerm _ _ | CshouldWildcard _ _
  | CshouldMatch _ _ => Should
  | CmustWildcard _ _ | CmustMatch _ _ | CmustShouldMatch _ | CmustTerm _ _
  | CofType _ | CmustPrefix _ _ => Must
  | CminimumShouldMatch _ => MinimumShouldMatch
  | Csort _ _ => Sort
  | Csize _ => Size
  | Cfrom _ => From
  end.

(** clause(c): the element a clause-adding or sorting call appends. *)
Definition clause_of (c : call) : option clause :=
  match c with
  | CshouldPrefix k v | CmustPrefix k v => Some (Leaf "prefix" k v)
  | CshouldTerm k v | CmustTerm k v => Some (Leaf "term" k v)
  | CshouldWildcard k v | CmustWildcard k v =>
      Some (Leaf "wildcard" k ("*" +:+ v +:+ "*"))
  | CshouldMatch k v | CmustMatch k v => Some (Leaf "match" k v)
  | CmustShouldMatch ts => Some (Nested ts)
  | CofType t => Some (Leaf "term" "type" t)
  | Csort a d => Some (Leaf a "order" (SortDirection_string (default desc d)))
  | CminimumShouldMatch _ | Csize _ | Cfrom _ => None
  end.

Definition field_eqb (f g : field) : bool :=
  match f, g with
  | Should, Should | Must, Must | MinimumShouldMatch, MinimumShouldMatch
  | Sort, Sort | Size, Size | From, From => true
  | _, _ => false
  end.

(** The calls of a chain that are for field [f], in call order. *)
Definition calls_for (f : field) (cs : list call) : list call :=
  List.filter (fun c => field_eqb (designated c) f) cs.

(** The clauses a chain appends to the list [f], in call order. *)
Definition clauses_for (f : field) (cs : list call) : list clause :=
  omap clause_of (calls_for f cs).

(** The document, field by field. *)
Record document := {
  d_should : list clause;
  d_must : list clause;
  d_minimum_should_match : option Z;
  d_sort : list clause;
  d_paging : list (string * Z)   (* [size] and [from], in the order first set *)
}.

Definition empty : document :=
  {| d_should := []; d_must := []; d_minimum_should_match := None;
     d_sort := []; d_paging := [] |}.

Fixpoint set_key (k : string) (n : Z) (ps : list (string * Z))
  : list (string * Z) :=
  match ps with
  | [] => [(k, n)]
  | (k', n') :: ps' =>
      if String.eqb k k' then (k', n) :: ps' else (k', n') :: set_key k n ps'
  end.

Fixpoint get_key (k : string) (ps : list (string * Z)) : option Z :=
  match ps with
  | [] => None
  | (k', n) :: ps' => if String.eqb k k' then Some n else get_key k ps'
  end.

Definition step (d : document) (c : call) : document :=
  match c with
  | CminimumShouldMatch n =>
      {| d_should := d_should d; d_must := d_must d;
         d_minimum_should_match := Some n;
         d_sort := d_sort d; d_paging := d_paging d |}
  | Csize n =>
      {| d_should := d_should d; d_must := d_must d;
         d_minimum_should_match := d_minimum_should_match d;
         d_sort := d_sort d;
         d_paging := set_key "size" (default 20%Z n) (d_paging d) |}
  | Cfrom n =>
      {| d_should := d_should d; d_must := d_must d;
         d_minimum_should_match := d_minimum_should_match d;
         d_sort := d_sort d;
         d_paging := set_key "from" (default 0%Z n) (d_paging d) |}
  | _ =>
      match designated c, clause_of c with
      | Should, Some cl =>
          {| d_should := d_should d ++ [cl]; d_must := d_must d;
             d_minimum_should_match := d_minimum_should_match d;
             d_sort := d_sort d; d_paging := d_paging d |}
      | Must, Some cl =>
          {| d_should := d_should d; d_must := d_must d ++ [cl];
             d_minimum_should_match := d_minimum_should_match d;
             d_sort := d_sort d; d_paging := d_paging d |}
      | Sort, Some cl =>
          {| d_should := d_should d; d_must := d_must d;
             d_minimum_should_match := d_minimum_should_match d;
             d_sort := d_sort d ++ [cl]; d_paging := d_paging d |}
      | _, _ => d
      end
  end.

Definition after (cs : list call) : document := fold_left step cs empty.

Definition number_member (p : string * Z) : string * tree :=
  (fst p, TNumber (snd p)).

Definition minimum_members (m : option Z) : list (string * tree) :=
  match m with
  | None => []
  | Some n => [("minimum_should_match", TNumber n)]
  end.

(** The shape of section 6. *)
Definition to_tree (d : document) : tree :=
  TObject
    (("query",
      TObject
        [("bool",
          TObject
            (("should", TArray (map clause_tree (d_should d)))
             :: ("must", TArray (map clause_tree (d_must d)))
             :: minimum_members (d_minimum_should_match d)))])
     :: ("sort", TArray (map clause_tree (d_sort d)))
     :: map number_member (d_paging d)).

(** Navigation in a tree. *)
Fixpoint member (k : string) (ms : list (string * tree)) : option tree :=
  match ms with
  | [] => None
  | (k', t) :: ms' => if String.eqb k k' then Some t else member k ms'
  end.

Fixpoint at_path (path : list string) (t : tree) : option tree :=
  match path with
  | [] => Some t
  | k :: path' =>
      match t with
      | TObject ms =>
          match member k ms with
          | Some t' => at_path path' t'
          | None => None
          end
      | _ => None
      end
  end.

Definition path_of (f : field) : list string :=
  match f with
  | Should => ["query"; "bool"; "should"]
  | Must => ["query"; "bool"; "must"]
  | MinimumShouldMatch => ["query"; "bool"; "minimum_should_match"]
  | Sort => ["sort"]
  | Size => ["size"]
  | From => ["from"]
  end.

(** The value of field [f] in a document tree; [None] when it is not set. *)
Definition field_of (f : field) (t : tree) : option tree :=
  at_path (path_of f) t.

End Doc.

(** ** How a heap holds a document *)
Module Rep.
Import JS QB Doc.

(** [v] refers to a leaf clause [{kind: {k: x}}] whose two objects live at or
    above location [z]. *)
Definition leaf_at (z : nat) (h : heap) (v : val) (kind k x : string) : Prop :=
  exists l li,
    v = VRef l /\ z <= li /\ li < l /\
    h !! l = Some (Obj [(kind, VRef li)]) /\
    h !! li = Some (Obj [(k, VString x)]).

Definition match_at (z : nat) (h : heap) (v : val) (t : term) : Prop :=
  leaf_at z h v "match" (key t) (value t).

Definition clause_at (z : nat) (h : heap) (v : val) (c : clause) : Prop :=
  match c with
  | Leaf kind k x => leaf_at z h v kind k x
  | Nested ts =>
      exists l lb ls rs,
        v = VRef l /\ z <= ls /\ ls < lb /\ lb < l /\
        h !! l = Some (Obj [("bool", VRef lb)]) /\
        h !! lb = Some (Obj [("should", VRef ls)]) /\
        h !! ls = Some (Arr rs []) /\
        Forall2 (match_at (S l) h) rs ts
  end.

Definition minimum_props (m : option Z) : props :=
  match m with
  | None => []
  | Some n => [("minimum_should_match", VNumber n)]
  end.

Definition number_prop (p : string * Z) : string * val :=
  (fst p, VNumber (snd p)).

(** The six objects of the default document sit at [base .. base + 5]; every
    clause object sits above them. *)
Record represents (base : nat) (d : document) (h : heap) : Prop := {
  rep_should : exists rs,
    h !! base = Some (Arr rs []) /\
    Forall2 (clause_at (base + 6) h) rs (d_should d);
  rep_must : exists rs,
    h !! (base + 1) = Some (Arr rs []) /\
    Forall2 (clause_at (base + 6) h) rs (d_must d);
  rep_bool :
    h !! (base + 2) =
      Some (Obj (("should", VRef base) :: ("must", VRef (base + 1))
                 :: minimum_props (d_minimum_should_match d)));
  rep_query : h !! (base + 3) = Some (Obj [("bool", VRef (base + 2))]);
  rep_sort : exists rs,
    h !! (base + 4) = Some (Arr rs []) /\
    Forall2 (clause_at (base + 6) h) rs (d_sort d);
  rep_root :
    h !! (base + 5) =
      Some (Obj (("query", VRef (base + 3)) :: ("sort", VRef (base + 4))
                 :: map number_prop (d_paging d)))
}.

(** Objects at or above [z] are kept as they are. *)
Definition keeps (z : nat) (h h' : heap) : Prop :=
  forall l o, z <= l -> h !! l = Some o -> h' !! l = Some o.

(** Nesting depth of a clause, in objects. *)
Definition depth (c : clause) : nat :=
  match c with
  | Leaf _ _ _ => 2
  | Nested [] => 3
  | Nested (_ :: _) => 5
  end.

End Rep.

(** ** Supplied documents

    A document handed to the constructor is used as it is.  What a mutator
    needs of it is the object or array it writes to. *)
Module Shape.
Import JS QB Doc Rep.

(** No dangling references: every reference points into the heap. *)
Definition wf_val (n : nat) (v : val) : bool :=
  match v with VRef l => Nat.ltb l n | _ => true end.

Definition wf_props (n : nat) (ps : props) : bool :=
  forallb (fun p => wf_val n (snd p)) ps.

Definition wf_obj (n : nat) (o : obj) : bool :=
  match o with
  | Obj ps => wf_props n ps
  | Arr es ps => forallb (wf_val n) es && wf_props n ps
  end.

Definition wf_heap (h : heap) : bool := forallb (wf_obj (List.length h)) h.

(** [v.k1.k2...]; [None] where the access throws. *)
Fixpoint resolve (h : heap) (v : val) (path : list string) : option val :=
  match path with
  | [] => Some v
  | k :: path' =>
      match GetV h v k with
      | Normal x => resolve h x path'
      | Throw _ => None
      end
  end.

(** Where the thing a mutator writes to is found from the document. *)
Definition receiver_path (f : field) : list string :=
  match f with
  | Should => ["query"; "bool"; "should"]
  | Must => ["query"; "bool"; "must"]
  | Sort => ["sort"]
  | MinimumShouldMatch => ["query"; "bool"]
  | Size | From => []
  end.

Definition is_list (f : field) : bool :=
  match f with
  | Should | Must | Sort => true
  | MinimumShouldMatch | Size | From => false
  end.

(** An array whose [push] is the built-in one. *)
Definition pushable (h : heap) (s : val) : option loc :=
  match s with
  | VRef a =>
      match h !! a with
      | Some (Arr _ ps) =>
          match assoc "push" ps with None => Some a | Some _ => None end
      | _ => None
      end
  | _ => None
  end.

(** An object or array: something a property can be set on. *)
Definition writable (h : heap) (s : val) : option loc :=
  match s with
  | VRef a => match h !! a with Some _ => Some a | None => None end
  | _ => None
  end.

(** The object a mutator for field [f] writes to: for the three lists an
    array with the built-in [push], for the three numbers any object or
    array.  [None] when the document lacks it. *)
Definition receiver (h : heap) (v : val) (f : field) : option loc :=
  match resolve h v (receiver_path f) with
  | Some s => if is_list f then pushable h s else writable h s
  | None => None
  end.

(** The property a setter writes. *)
Definition setting_of (c : call) : option (string * Z) :=
  match c with
  | CminimumShouldMatch n => Some ("minimum_should_match", n)
  | Csize n => Some ("size", default 20%Z n)
  | Cfrom n => Some ("from", default 0%Z n)
  | _ => None
  end.

Definition with_prop (k : string) (x : val) (o : obj) : obj :=
  match o with
  | Obj ps => Obj (set_prop k x ps)
  | Arr es ps => Arr es (set_prop k x ps)
  end.

(** The list mutators differ only in the list they find and in the argument
    they push. *)
Definition push_clause (f : field) (this : QueryBuilder) (arg : M val)
  : M QueryBuilder :=
  (match f with
   | Should =>
       let! q := get (queryObject this) "query" in
       let! b := get q "bool" in
       let! s := get b "should" in
       call_push s arg ;;; ret this
   | Must =>
       let! q := get (queryObject this) "query" in
       let! b := get q "bool" in
       let! m := get b "must" in
       call_push m arg ;;; ret this
   | Sort =>
       let! s := get (queryObject this) "sort" in
       call_push s arg ;;; ret this
   | _ => ret this
   end)%js.

(** What a successful call [c] has done to its receiver [o] at [a]: a list
    mutator has appended one reference to the clause of [c], built from
    fresh objects; a setter has written its property. *)
Definition effect (c : call) (h : heap) (a : loc) (o : obj) (h' : heap)
  : Prop :=
  match clause_of c, setting_of c with
  | Some cl, _ =>
      exists es ps r,
        o = Arr es ps /\ h' !! a = Some (Arr (es ++ [r]) ps) /\
        clause_at (List.length h) h' r cl
  | None, Some (k, n) => h' = <[a := with_prop k (VNumber n) o]> h
  | None, None => False
  end.

Definition literal (kind k x : string) : M val :=
  (let! o := new_object [(k, VString x)] in new_object [(kind, o)])%js.

End Shape.

(** ** Running the class *)
Module Run.
Import JS QB Doc Shape.
Local Open Scope js_scope.

(** [new QueryBuilder().c1(..)...cN(..)] *)
Definition newBuilder (cs : list call) : M QueryBuilder :=
  let! b := constructor VUndefined in chain cs b.

(** The document a builder holds, as plain data; [None] if the run threw or
    the document cannot be walked. *)
Definition document_of (r : completion QueryBuilder * heap) : option tree :=
  match r with
  | (Normal b, h) =>
      match snapshot h (queryObject b) with
      | Normal t => Some t
      | Throw _ => None
      end
  | (Throw _, _) => None
  end.

(** The document of [new QueryBuilder().c1(..)...cN(..)], started in heap
    [h0]. *)
Definition built (h0 : heap) (cs : list call) : option tree :=
  document_of (newBuilder cs h0).

(** [new QueryBuilder().c1(..)...cN(..).toString()] *)
Definition text (h0 : heap) (cs : list call) : completion val :=
  fst ((let! b := newBuilder cs in toString b) h0).

(** A computation that gives back the builder [this], or throws. *)
Definition returns (this : QueryBuilder) (m : M QueryBuilder) : Prop :=
  forall h, exists h',
    m h = (Normal this, h') \/ exists e, m h = (Throw e, h').

(** The keys the setters write; the class reads none of them. *)
Definition setter_key (k : string) : Prop :=
  k = "minimum_should_match" \/ k = "size" \/ k = "from".

(** A computation that, started in a heap of at least [n] objects without
    dangling references, leaves such a heap, no shorter, and a result that
    satisfies [P] there. *)
Definition sound {A} (n : nat) (P : nat -> A -> Prop) (m : M A) : Prop :=
  forall h, n <= List.length h -> wf_heap h = true ->
    wf_heap (snd (m h)) = true /\
    List.length h <= List.length (snd (m h)) /\
    forall x, fst (m h) = Normal x -> P (List.length (snd (m h))) x.

Definition is_array (o : obj) : bool :=
  match o with Arr _ _ => true | Obj _ => false end.

(** The property a call writes, if it is a setter. *)
Definition written_key (c : call) : option string :=
  fst <$> setting_of c.

(** [d = b.build(); b.c(..)] and then a look at [d], for [b] the builder
    [new QueryBuilder().c1(..)...cN(..)]. *)
Definition seen_through_build (h0 : heap) (cs : list call) (c : call)
  : option tree :=
  match (let! b := newBuilder cs in
         let! d := build b in
         let! _ := invoke c b in
         ret d) h0 with
  | (Normal d, h) =>
      match snapshot h d with
      | Normal t => Some t
      | Throw _ => None
      end
  | (Throw _, _) => None
  end.

(** The heap and the builder of [new QueryBuilder()] in an empty heap. *)
Definition heap0 : heap := Eval vm_compute in snd (constructor VUndefined []).
Definition builder0 : QueryBuilder := {| queryObject := VRef 5 |}.

(** The document [{query: {bool: {should: [], must: []}}}], without [sort],
    as a caller may supply it; the builder on it. *)
Definition heap_without_sort : heap :=
  [Arr [] []; Arr [] [];
   Obj [("should", VRef 0); ("must", VRef 1)];
   Obj [("bool", VRef 2)];
   Obj [("query", VRef 3)]].
Definition builder_without_sort : QueryBuilder := {| queryObject := VRef 4 |}.



(** A sort entry [{attribute: {order: direction}}]. *)
Definition sort_entry (attribute : string) (direction : SortDirection) : tree :=
  TObject [(attribute, TObject [("order", TString (SortDirection_string direction))])].

(** Apostrophes for double quotes, to write JSON text legibly. *)
Fixpoint json (s : string) : string :=
  match s with
  | EmptyString => EmptyString
  | String c s' =>
      String (if Ascii.eqb c "'"%char then dquote else c) (json s')
  end.

End Run.

(** ** Whole chains, and more than one builder *)
Module Laws.
Import JS QB Doc Rep Shape Run.
Local Open Scope js_scope.

(** The entries the [sort] calls of a chain add, in call order. *)
Definition sort_entries (cs : list call) : list tree :=
  omap (fun c => match c with
                 | Csort a d => Some (sort_entry a (default desc d))
                 | _ => None
                 end) cs.

(** The number the setter calls for [f] leave: the argument of the last of
    them, [None] when the chain has none. *)
Definition last_setting (f : field) (cs : list call) : option Z :=
  snd <$> last (omap setting_of (calls_for f cs)).

(** What a list of calls, all for field [f], leaves in [f]. *)
Definition field_value (f : field) (own : list call) : option tree :=
  if is_list f then Some (TArray (map clause_tree (omap clause_of own)))
  else TNumber <$> (snd <$> last (omap setting_of own)).

(** [size] and [from] are properties of one object, the document itself. *)
Definition paging (f : field) : bool :=
  match f with Size | From => true | _ => false end.

(** Two calls for different fields, not both for [size] and [from]. *)
Definition independent (c1 c2 : call) : bool :=
  negb (field_eqb (designated c1) (designated c2))
  && negb (paging (designated c1) && paging (designated c2)).

(** The should-call for a must-call and the other way round.  Only
    [mustShouldMatch] has no counterpart. *)
Definition mirror (c : call) : call :=
  match c with
  | CshouldPrefix k v => CmustPrefix k v
  | CshouldTerm k v => CmustTerm k v
  | CshouldWildcard k v => CmustWildcard k v
  | CshouldMatch k v => CmustMatch k v
  | CmustPrefix k v => CshouldPrefix k v
  | CmustTerm k v => CshouldTerm k v
  | CmustWildcard k v => CshouldWildcard k v
  | CmustMatch k v => CshouldMatch k v
  | CofType t => CshouldTerm "type" t
  | CmustShouldMatch _ | CminimumShouldMatch _ | Csort _ _ | Csize _
  | Cfrom _ => c
  end.

Definition has_mirror (c : call) : bool :=
  match c with CmustShouldMatch _ => false | _ => true end.

Definition elements (o : obj) : list val :=
  match o with Arr es _ => es | Obj _ => [] end.

(** [o'] is [o] grown: the same kind of object, the elements of [o] first
    and in place, every property of [o] still there, and with the value it
    had unless it is one of the three the setters write. *)
Definition grows (o o' : obj) : Prop :=
  is_array o' = is_array o /\
  elements o `prefix_of` elements o' /\
  (forall k, is_Some (assoc k (own_props o)) ->
             is_Some (assoc k (own_props o'))) /\
  (forall k, ~ setter_key k ->
             assoc k (own_props o') = assoc k (own_props o)).

(** [b1 = new QueryBuilder().cs1; b2 = new QueryBuilder().cs2; b1.cs1'] *)
Definition two_builders (cs1 cs2 cs1' : list call)
  : M (QueryBuilder * QueryBuilder) :=
  let! b1 := newBuilder cs1 in
  let! b2 := newBuilder cs2 in
  let! b1 := chain cs1' b1 in
  ret (b1, b2).

(** The documents two builders hold, as plain data. *)
Definition documents_of (r : completion (QueryBuilder * QueryBuilder) * heap)
  : option (tree * tree) :=
  match r with
  | (Normal (b1, b2), h) =>
      match snapshot h (queryObject b1), snapshot h (queryObject b2) with
      | Normal t1, Normal t2 => Some (t1, t2)
      | _, _ => None
      end
  | (Throw _, _) => None
  end.

(** [new QueryBuilder(new QueryBuilder().cs1.build()).cs2] *)
Definition resumed (cs1 cs2 : list call) : M QueryBuilder :=
  let! b := newBuilder cs1 in
  let! d := build b in
  let! b' := constructor d in
  chain cs2 b'.



(** The clauses a chain pushes to the array at [a] of a supplied document:
    those of the calls whose list is that array, in call order. *)
Definition pushed (h : heap) (this : QueryBuilder) (a : loc) (cs : list call)
  : list clause :=
  omap clause_of
    (List.filter
       (fun c => bool_decide (receiver h (queryObject this) (designated c) = Some a))
       cs).

(** The default document of the constructor, as plain data. *)
Definition default_tree : tree :=
  TObject [("query",
            TObject [("bool",
                      TObject [("should", TArray []); ("must", TArray [])])]);
           ("sort", TArray [])].

End Laws.

Module Facts.
Import JS QB Doc Shape Rep Run.
Local Open Scope js_scope.

Lemma keeps_refl z h : keeps z h h.
Proof. by intros l o _ H. Qed.

Lemma keeps_trans z h1 h2 h3 : keeps z h1 h2 -> keeps z h2 h3 -> keeps z h1 h3.
Proof. intros H12 H23 l o Hz H. eauto. Qed.

Lemma keeps_weaken z z' h h' : z <= z' -> keeps z h h' -> keeps z' h h'.
Proof. intros Hz H l o Hl. apply H. lia. Qed.

Lemma keeps_app z (h new : heap) : keeps z h (h ++ new).
Proof. intros l o _ H. by apply lookup_app_l_Some. Qed.

Lemma keeps_insert z (h : heap) a o : a < z -> keeps z h (<[a := o]> h).
Proof.
  intros Ha l o' Hl H. rewrite list_lookup_insert_ne; [done | lia].
Qed.

Lemma leaf_at_keeps z h h' v kind k x :
  keeps z h h' -> leaf_at z h v kind k x -> leaf_at z h' v kind k x.
Proof.
  intros Hk (l & li & -> & Hz & Hlt & Hl & Hli).
  exists l, li. repeat split; try done; apply Hk; try done; lia.
Qed.

Lemma clause_at_keeps z h h' v c :
  keeps z h h' -> clause_at z h v c -> clause_at z h' v c.
Proof.
  intros Hk. destruct c as [kind k x | ts]; simpl.
  - by apply leaf_at_keeps.
  - intros (l & lb & ls & rs & -> & Hz & H1 & H2 & Hl & Hlb & Hls & Hrs).
    exists l, lb, ls, rs. repeat split; try done; try (apply Hk; try done; lia).
    eapply Forall2_impl; [exact Hrs |].
    intros r t. apply leaf_at_keeps. eapply keeps_weaken; [| exact Hk]. lia.
Qed.

Lemma clauses_at_keeps z h h' rs cs :
  keeps z h h' ->
  Forall2 (clause_at z h) rs cs -> Forall2 (clause_at z h') rs cs.
Proof.
  intros Hk H. eapply Forall2_impl; [exact H |].
  intros r c. by apply clause_at_keeps.
Qed.

(** *** Walking a represented document *)

Lemma not_in_list (stack : list nat) l :
  Forall (fun s => s <> l) stack -> bool_decide (l ∈ stack) = false.
Proof.
  intros Hst. apply bool_decide_eq_false. intros Hin.
  rewrite Forall_forall in Hst. by apply Hst in Hin.
Qed.

(** The location about to be visited is not among its ancestors: it differs
    from each one named, and lies above the bound of the rest. *)
Ltac off_stack :=
  match goal with
  | |- context [bool_decide (?l ∈ ?st)] =>
      replace (bool_decide (l ∈ st)) with false
        by (symmetry; apply not_in_list;
            repeat (apply Forall_cons; split; [lia |]);
            first [ by apply Forall_nil
                  | eapply Forall_impl; [eassumption | simpl; intros; lia] ])
  end.

Lemma walk_string fuel h stack s : walk fuel h stack (VString s) = Normal (TString s).
Proof. by destruct fuel. Qed.

Lemma walk_number fuel h stack n : walk fuel h stack (VNumber n) = Normal (TNumber n).
Proof. by destruct fuel. Qed.

Lemma walk_ref fuel h stack l :
  walk (S fuel) h stack (VRef l) =
    if bool_decide (l ∈ stack) then Throw TypeError else
    match h !! l with
    | None => Throw TypeError
    | Some (Obj ps) =>
        match walk_members (walk fuel h (l :: stack)) ps with
        | Throw e => Throw e
        | Normal ms => Normal (TObject ms)
        end
    | Some (Arr es _) =>
        match walk_elements (walk fuel h (l :: stack)) es with
        | Throw e => Throw e
        | Normal ts => Normal (TArray ts)
        end
    end.
Proof. reflexivity. Qed.

Lemma walk_leaf z h stack v kind k x fuel :
  leaf_at z h v kind k x -> Forall (fun s => s < z) stack -> 2 <= fuel ->
  walk fuel h stack v = Normal (leaf_tree kind k x).
Proof.
  intros (l & li & -> & Hz & Hlt & Hl & Hli) Hst Hfuel.
  destruct fuel as [|[|fuel]]; [lia | lia |].
  rewrite walk_ref. off_stack. rewrite Hl.
  cbn [walk_members]. rewrite walk_ref. off_stack.
  rewrite Hli. cbn [walk_members]. by rewrite walk_string.
Qed.

Lemma walk_matches z h stack rs ts fuel :
  Forall2 (match_at z h) rs ts -> Forall (fun s => s < z) stack -> 2 <= fuel ->
  walk_elements (walk fuel h stack) rs = Normal (map match_tree ts).
Proof.
  intros H Hst Hfuel. induction H as [| r t rs ts Hr _ IH]; [done |].
  cbn [walk_elements map]. rewrite (walk_leaf z _ _ _ _ _ _ _ Hr Hst Hfuel).
  by rewrite IH.
Qed.

Lemma stack_below z z' (stack : list nat) :
  Forall (fun s => s < z) stack -> z <= z' -> Forall (fun s => s < z') stack.
Proof.
  intros Hst Hz. eapply Forall_impl; [exact Hst |]. simpl. intros. lia.
Qed.

Lemma walk_clause z h stack v c fuel :
  clause_at z h v c -> Forall (fun s => s < z) stack -> depth c <= fuel ->
  walk fuel h stack v = Normal (clause_tree c).
Proof.
  destruct c as [kind k x | ts]; simpl.
  - intros. by eapply walk_leaf.
  - intros (l & lb & ls & rs & -> & Hz & H1 & H2 & Hl & Hlb & Hls & Hrs) Hst Hfuel.
    assert (3 <= fuel) by (destruct ts; lia).
    destruct fuel as [|[|[|fuel]]]; [lia | lia | lia |].
    rewrite walk_ref. off_stack. rewrite Hl.
    cbn [walk_members]. rewrite walk_ref. off_stack.
    rewrite Hlb. cbn [walk_members]. rewrite walk_ref. off_stack.
    rewrite Hls.
    destruct Hrs as [| r t rs ts Hr Hrs]; [done |].
    rewrite (walk_matches (S l) _ _ (r :: rs) (t :: ts)); [done | | | simpl in *; lia].
    + by constructor.
    + repeat constructor; try lia. eapply stack_below; [done | lia].
Qed.

Lemma walk_clauses z h stack rs cs fuel :
  Forall2 (clause_at z h) rs cs -> Forall (fun s => s < z) stack ->
  Forall (fun c => depth c <= fuel) cs ->
  walk_elements (walk fuel h stack) rs = Normal (map clause_tree cs).
Proof.
  intros H Hst Hfuel. induction H as [| r c rs cs Hr _ IH]; [done |].
  apply Forall_cons in Hfuel as [Hc Hcs].
  cbn [walk_elements map]. rewrite (walk_clause z _ _ _ _ _ Hr Hst Hc).
  by rewrite IH.
Qed.

Lemma walk_numbers w ps :
  (forall n, w (VNumber n) = Normal (TNumber n)) ->
  walk_members w (map number_prop ps) = Normal (map number_member ps).
Proof.
  intros Hw. induction ps as [| [k n] ps IH]; [done |].
  cbn. by rewrite Hw, IH.
Qed.

(** A clause takes up as many heap objects as it is deep. *)
Lemma clause_at_bound z h v c : clause_at z h v c -> z + depth c <= length h.
Proof.
  destruct c as [kind k x | ts]; simpl.
  - intros (l & li & -> & Hz & Hlt & Hl & Hli).
    apply lookup_lt_Some in Hl. lia.
  - intros (l & lb & ls & rs & -> & Hz & H1 & H2 & Hl & Hlb & Hls & Hrs).
    destruct Hrs as [| r t rs ts (l' & li' & -> & Hz' & Hlt' & Hl' & Hli') _].
    + apply lookup_lt_Some in Hl. lia.
    + apply lookup_lt_Some in Hl'. lia.
Qed.

Lemma clauses_at_bound z h rs cs n :
  Forall2 (clause_at z h) rs cs -> length h <= z + n ->
  Forall (fun c => depth c <= n) cs.
Proof.
  intros H Hn. induction H as [| r c rs cs Hr _ IH]; constructor; [| done].
  apply clause_at_bound in Hr. lia.
Qed.

Lemma snapshot_represents base d h :
  represents base d h -> snapshot h (VRef (base + 5)) = Normal (to_tree d).
Proof.
  intros [(ss & Hs & Hss) (ms & Hm & Hms) Hb Hq (so & Hso & Hsos) Hr].
  unfold snapshot.
  assert (base + 6 <= length h) as Hlen by (apply lookup_lt_Some in Hr; lia).
  destruct (length h) as [|[|[|[|n]]]] eqn:Hn; [lia | lia | lia | lia |].
  assert (Forall (fun s => s < base + 6) [base + 5]) as St1 by (repeat constructor; lia).
  rewrite walk_ref. off_stack. rewrite Hr.
  cbn [walk_members]. rewrite walk_ref. off_stack.
  rewrite Hq. cbn [walk_members]. rewrite walk_ref. off_stack.
  rewrite Hb. cbn [walk_members]. rewrite walk_ref. off_stack.
  rewrite Hs.
  rewrite (walk_clauses (base + 6) _ _ ss (d_should d)); [| done | repeat constructor; lia |].
  2:{ eapply clauses_at_bound; [done | lia]. }
  rewrite walk_ref. off_stack. rewrite Hm.
  rewrite (walk_clauses (base + 6) _ _ ms (d_must d)); [| done | repeat constructor; lia |].
  2:{ eapply clauses_at_bound; [done | lia]. }
  assert (walk_members (walk (S (S n)) h [base + 2; base + 3; base + 5])
            (minimum_props (d_minimum_should_match d))
          = Normal (minimum_members (d_minimum_should_match d))) as ->.
  { destruct (d_minimum_should_match d); [| done].
    cbn [minimum_props walk_members]. by rewrite walk_number. }
  cbn [walk_members]. rewrite walk_ref. off_stack. rewrite Hso.
  rewrite (walk_clauses (base + 6) _ _ so (d_sort d)); [| done | repeat constructor; lia |].
  2:{ eapply clauses_at_bound; [done | lia]. }
  rewrite walk_numbers by (intros; apply walk_number).
  reflexivity.
Qed.

(** *** One call on a represented document *)

Lemma lookup_fresh_0 (h new : list obj) o : (h ++ o :: new) !! length h = Some o.
Proof. by apply list_lookup_middle. Qed.

Lemma lookup_fresh_1 (h new : list obj) o o' :
  (h ++ o :: o' :: new) !! S (length h) = Some o'.
Proof.
  rewrite lookup_app_r by lia. by replace (S (length h) - length h) with 1 by lia.
Qed.

Lemma lookup_fresh_2 (h new : list obj) o o' o'' :
  (h ++ o :: o' :: o'' :: new) !! S (S (length h)) = Some o''.
Proof.
  rewrite lookup_app_r by lia.
  by replace (S (S (length h)) - length h) with 2 by lia.
Qed.

(** [base.push({kind: {k: x}})] on an array that has the built-in [push]. *)
Lemma push_literal (h : list obj) a es ps kind k x :
  h !! a = Some (Arr es ps) -> assoc "push" ps = None ->
  call_push (VRef a)
    (let! o := new_object [(k, x)] in new_object [(kind, o)]) h =
  (Normal (VNumber (Z.of_nat (S (length es)))),
   <[a := Arr (es ++ [VRef (S (length h))]) ps]>
     (h ++ [Obj [(k, x)]; Obj [(kind, VRef (length h))]])).
Proof.
  intros Ha Hpush.
  unfold call_push, bind, GetMethod_push, new_object, alloc, array_push.
  rewrite Ha, Hpush. rewrite length_app. simpl.
  rewrite <- app_assoc. simpl.
  rewrite (lookup_app_l_Some _ _ _ _ Ha).
  by replace (length h + 1) with (S (length h)) by lia.
Qed.

(** The same for an argument that is already a reference. *)
Lemma push_value (h : list obj) a es ps x :
  h !! a = Some (Arr es ps) -> assoc "push" ps = None ->
  call_push (VRef a) (ret x) h =
  (Normal (VNumber (Z.of_nat (S (length es)))), <[a := Arr (es ++ [x]) ps]> h).
Proof.
  intros Ha Hpush.
  unfold call_push, bind, GetMethod_push, ret, array_push.
  by rewrite Ha, Hpush, Ha.
Qed.

Lemma leaf_at_fresh z (h : list obj) a o kind k x :
  z <= length h -> a < z ->
  leaf_at z
    (<[a := o]> (h ++ [Obj [(k, VString x)]; Obj [(kind, VRef (length h))]]))
    (VRef (S (length h))) kind k x.
Proof.
  intros Hz Ha. exists (S (length h)), (length h).
  repeat split; [done | lia | |].
  - rewrite list_lookup_insert_ne by lia. apply lookup_fresh_1.
  - rewrite list_lookup_insert_ne by lia. apply lookup_fresh_0.
Qed.

Lemma keeps_push z (h new : list obj) a o :
  a < z -> keeps z h (<[a := o]> (h ++ new)).
Proof.
  intros Ha. eapply keeps_trans; [apply keeps_app | by apply keeps_insert].
Qed.

Lemma lookup_push_ne (h new : list obj) a o i x :
  i <> a -> h !! i = Some x -> (<[a := o]> (h ++ new)) !! i = Some x.
Proof.
  intros Hne Hi. rewrite list_lookup_insert_ne by done.
  by apply lookup_app_l_Some.
Qed.

Lemma lookup_push_eq (h new : list obj) a o x :
  h !! a = Some x -> (<[a := o]> (h ++ new)) !! a = Some o.
Proof.
  intros Ha. apply list_lookup_insert_eq. rewrite length_app.
  apply lookup_lt_Some in Ha. lia.
Qed.

Lemma rep_length base d h : represents base d h -> base + 6 <= length h.
Proof. intros [_ _ _ _ _ Hr]. apply lookup_lt_Some in Hr. lia. Qed.

(** Where the three lists are found. *)
Lemma rep_get_should base d h B (m : val -> M B) :
  represents base d h ->
  (let! q := get (VRef (base + 5)) "query" in
   let! b := get q "bool" in
   let! s := get b "should" in m s) h = m (VRef base) h.
Proof.
  intros [_ _ Hb Hq _ Hr]. unfold bind, get, GetV.
  rewrite Hr. cbn. rewrite Hq. cbn. rewrite Hb. by cbn.
Qed.

Lemma rep_get_must base d h B (m : val -> M B) :
  represents base d h ->
  (let! q := get (VRef (base + 5)) "query" in
   let! b := get q "bool" in
   let! s := get b "must" in m s) h = m (VRef (base + 1)) h.
Proof.
  intros [_ _ Hb Hq _ Hr]. unfold bind, get, GetV.
  rewrite Hr. cbn. rewrite Hq. cbn. rewrite Hb. by cbn.
Qed.

Lemma rep_get_sort base d h B (m : val -> M B) :
  represents base d h ->
  (let! s := get (VRef (base + 5)) "sort" in m s) h = m (VRef (base + 4)) h.
Proof.
  intros [_ _ _ _ _ Hr]. unfold bind, get, GetV. rewrite Hr. by cbn.
Qed.

Lemma rep_get_bool base d h B (m : val -> M B) :
  represents base d h ->
  (let! q := get (VRef (base + 5)) "query" in
   let! b := get q "bool" in m b) h = m (VRef (base + 2)) h.
Proof.
  intros [_ _ _ Hq _ Hr]. unfold bind, get, GetV.
  rewrite Hr. cbn. rewrite Hq. by cbn.
Qed.

(** Appending one clause reference to one of the three lists. *)
Lemma represents_push base d h i rs r c new :
  represents base d h ->
  (i = 0 \/ i = 1 \/ i = 4) ->
  h !! (base + i) = Some (Arr rs []) ->
  clause_at (base + 6) (<[base + i := Arr (rs ++ [r]) []]> (h ++ new)) r c ->
  represents base
    {| d_should := if Nat.eqb i 0 then d_should d ++ [c] else d_should d;
       d_must := if Nat.eqb i 1 then d_must d ++ [c] else d_must d;
       d_minimum_should_match := d_minimum_should_match d;
       d_sort := if Nat.eqb i 4 then d_sort d ++ [c] else d_sort d;
       d_paging := d_paging d |}
    (<[base + i := Arr (rs ++ [r]) []]> (h ++ new)).
Proof.
  intros [(ss & Hs & Hss) (ms & Hm & Hms) Hb Hq (so & Hso & Hsos) Hr] Hi Ha Hc.
  set (h' := <[base + i := Arr (rs ++ [r]) []]> (h ++ new)) in *.
  assert (keeps (base + 6) h h') as Hk by (apply keeps_push; lia).
  assert (h' !! (base + i) = Some (Arr (rs ++ [r]) [])) as Ha'
    by (eapply lookup_push_eq; exact Ha).
  assert (forall j x, j <> base + i -> h !! j = Some x -> h' !! j = Some x)
    as Hne by (intros; by apply lookup_push_ne).
  pose proof (clauses_at_keeps _ _ _ _ _ Hk Hss) as Hss'.
  pose proof (clauses_at_keeps _ _ _ _ _ Hk Hms) as Hms'.
  pose proof (clauses_at_keeps _ _ _ _ _ Hk Hsos) as Hsos'.
  assert (Forall2 (clause_at (base + 6) h') [r] [c]) as Hc'
    by (by repeat constructor).
  destruct Hi as [-> | [-> | ->]]; rewrite ?Nat.add_0_r in *; simpl.
  - assert (rs = ss) as -> by congruence.
    split; simpl; try (apply Hne; [lia | done]).
    + exists (ss ++ [r]). split; [done | by apply Forall2_app].
    + exists ms. split; [apply Hne; [lia | done] | done].
    + exists so. split; [apply Hne; [lia | done] | done].
  - assert (rs = ms) as -> by congruence.
    split; simpl; try (apply Hne; [lia | done]).
    + exists ss. split; [apply Hne; [lia | done] | done].
    + exists (ms ++ [r]). split; [done | by apply Forall2_app].
    + exists so. split; [apply Hne; [lia | done] | done].
  - assert (rs = so) as -> by congruence.
    split; simpl; try (apply Hne; [lia | done]).
    + exists ss. split; [apply Hne; [lia | done] | done].
    + exists ms. split; [apply Hne; [lia | done] | done].
    + exists (so ++ [r]). split; [done | by apply Forall2_app].
Qed.

Lemma should_leaf base d h this kind k x :
  represents base d h -> queryObject this = VRef (base + 5) ->
  exists h',
    (let! q := get (queryObject this) "query" in
     let! b := get q "bool" in
     let! s := get b "should" in
     call_push s (let! o := new_object [(k, VString x)] in
                  new_object [(kind, o)]) ;;;
     ret this) h = (Normal this, h') /\
    represents base
      {| d_should := d_should d ++ [Leaf kind k x]; d_must := d_must d;
         d_minimum_should_match := d_minimum_should_match d;
         d_sort := d_sort d; d_paging := d_paging d |} h'.
Proof.
  intros Hrep ->. pose proof (rep_length _ _ _ Hrep) as Hlen.
  destruct (rep_should _ _ _ Hrep) as (rs & Ha & _).
  rewrite (rep_get_should base d h) by done.
  unfold bind at 1. rewrite (push_literal _ _ _ _ _ _ _ Ha eq_refl).
  eexists. split; [reflexivity |].
  pose proof (represents_push base d h 0 rs (VRef (S (length h)))
                (Leaf kind k x)
                [Obj [(k, VString x)]; Obj [(kind, VRef (length h))]]
                Hrep (or_introl eq_refl)) as Hpush.
  rewrite Nat.add_0_r in Hpush. apply Hpush; [done |].
  apply leaf_at_fresh; lia.
Qed.

Lemma must_leaf base d h this kind k x :
  represents base d h -> queryObject this = VRef (base + 5) ->
  exists h',
    (let! q := get (queryObject this) "query" in
     let! b := get q "bool" in
     let! m := get b "must" in
     call_push m (let! o := new_object [(k, VString x)] in
                  new_object [(kind, o)]) ;;;
     ret this) h = (Normal this, h') /\
    represents base
      {| d_should := d_should d; d_must := d_must d ++ [Leaf kind k x];
         d_minimum_should_match := d_minimum_should_match d;
         d_sort := d_sort d; d_paging := d_paging d |} h'.
Proof.
  intros Hrep ->. pose proof (rep_length _ _ _ Hrep) as Hlen.
  destruct (rep_must _ _ _ Hrep) as (rs & Ha & _).
  rewrite (rep_get_must base d h) by done.
  unfold bind at 1. rewrite (push_literal _ _ _ _ _ _ _ Ha eq_refl).
  eexists. split; [reflexivity |].
  apply (represents_push base d h 1 rs _ (Leaf kind k x)); auto.
  apply leaf_at_fresh; lia.
Qed.

Lemma sort_leaf base d h this kind k x :
  represents base d h -> queryObject this = VRef (base + 5) ->
  exists h',
    (let! s := get (queryObject this) "sort" in
     call_push s (let! o := new_object [(k, VString x)] in
                  new_object [(kind, o)]) ;;;
     ret this) h = (Normal this, h') /\
    represents base
      {| d_should := d_should d; d_must := d_must d;
         d_minimum_should_match := d_minimum_should_match d;
         d_sort := d_sort d ++ [Leaf kind k x]; d_paging := d_paging d |} h'.
Proof.
  intros Hrep ->. pose proof (rep_length _ _ _ Hrep) as Hlen.
  destruct (rep_sort _ _ _ Hrep) as (rs & Ha & _).
  rewrite (rep_get_sort base d h) by done.
  unfold bind at 1. rewrite (push_literal _ _ _ _ _ _ _ Ha eq_refl).
  eexists. split; [reflexivity |].
  apply (represents_push base d h 4 rs _ (Leaf kind k x)); auto.
  apply leaf_at_fresh; lia.
Qed.

Lemma GetV_ref (h : list obj) l o k x :
  h !! l = Some o -> assoc k (own_props o) = Some x ->
  GetV h (VRef l) k = Normal x.
Proof. intros Hl Hk. unfold GetV. by rewrite Hl, Hk. Qed.

Lemma bind_get {B} (h : list obj) v k x (m : val -> M B) :
  GetV h v k = Normal x -> (let! y := get v k in m y) h = m x h.
Proof. intros Hg. unfold bind, get. by rewrite Hg. Qed.

Lemma represents_keeps base d h h' :
  keeps 0 h h' -> represents base d h -> represents base d h'.
Proof.
  intros Hk [(ss & Hs & Hss) (ms & Hm & Hms) Hb Hq (so & Hso & Hsos) Hr].
  assert (keeps (base + 6) h h') as Hk' by (eapply keeps_weaken; [| exact Hk]; lia).
  split; try (apply Hk; [lia | done]).
  - exists ss. split; [apply Hk; [lia | done] | by eapply clauses_at_keeps].
  - exists ms. split; [apply Hk; [lia | done] | by eapply clauses_at_keeps].
  - exists so. split; [apply Hk; [lia | done] | by eapply clauses_at_keeps].
Qed.

(** The loop of [mustShouldMatch]: each term adds one match clause to the
    nested list and leaves every other object as it was. *)
Lemma forEach_match (l lb ls : nat) ts :
  forall (h : list obj) rs ts0,
    ls < lb -> lb < l -> l < length h ->
    h !! l = Some (Obj [("bool", VRef lb)]) ->
    h !! lb = Some (Obj [("should", VRef ls)]) ->
    h !! ls = Some (Arr rs []) ->
    Forall2 (match_at (S l) h) rs ts0 ->
    exists h' rs',
      forEach ts (fun term =>
        let! b := get (VRef l) "bool" in
        let! s := get b "should" in
        call_push s (let! o := new_object [(key term, VString (value term))] in
                     new_object [("match", o)]) ;;;
        ret tt) h = (Normal tt, h') /\
      h' !! ls = Some (Arr rs' []) /\
      Forall2 (match_at (S l) h') rs' (ts0 ++ ts) /\
      (forall i o, i <> ls -> h !! i = Some o -> h' !! i = Some o) /\
      length h <= length h'.
Proof.
  induction ts as [| t ts IH]; intros h rs ts0 H1 H2 Hlen Hl Hlb Hls Hrs.
  - exists h, rs. rewrite app_nil_r. by repeat split.
  - cbn [forEach]. unfold bind at 1.
    assert ((let! b := get (VRef l) "bool" in
             let! s := get b "should" in
             call_push s (let! o := new_object [(key t, VString (value t))] in
                          new_object [("match", o)]) ;;;
             ret tt) h =
            (Normal tt,
             <[ls := Arr (rs ++ [VRef (S (length h))]) []]>
               (h ++ [Obj [(key t, VString (value t))];
                      Obj [("match", VRef (length h))]]))) as ->.
    { rewrite (bind_get h _ _ (VRef lb)) by (by eapply GetV_ref).
      rewrite (bind_get h _ _ (VRef ls)) by (by eapply GetV_ref).
      unfold bind at 1. by rewrite (push_literal _ _ _ _ _ _ _ Hls eq_refl). }
    set (h1 := <[ls := _]> _).
    assert (forall i o, i <> ls -> h !! i = Some o -> h1 !! i = Some o) as Hne
      by (intros; by apply lookup_push_ne).
    assert (keeps (S l) h h1) as Hk by (apply keeps_push; lia).
    destruct (IH h1 (rs ++ [VRef (S (length h))]) (ts0 ++ [t]))
      as (h' & rs' & Hrun & Hls' & Hrs' & Hframe & Hlen'); try done.
    + unfold h1. rewrite length_insert, length_app. lia.
    + apply Hne; [lia | done].
    + apply Hne; [lia | done].
    + by eapply lookup_push_eq.
    + apply Forall2_app.
      * eapply Forall2_impl; [exact Hrs |]. intros r t'. by apply leaf_at_keeps.
      * repeat constructor. apply leaf_at_fresh; lia.
    + exists h', rs'. rewrite <- app_assoc in Hrs'. repeat split; try done.
      * intros i o Hi Hio. apply Hframe; [done |]. by apply Hne.
      * unfold h1 in Hlen'. rewrite length_insert, length_app in Hlen'. lia.
Qed.

Lemma mustShouldMatch_represents base d h this ts :
  represents base d h -> queryObject this = VRef (base + 5) ->
  exists h',
    mustShouldMatch this ts h = (Normal this, h') /\
    represents base
      {| d_should := d_should d; d_must := d_must d ++ [Nested ts];
         d_minimum_should_match := d_minimum_should_match d;
         d_sort := d_sort d; d_paging := d_paging d |} h'.
Proof.
  intros Hrep Hthis. pose proof (rep_length _ _ _ Hrep) as Hlen.
  set (n := length h).
  set (h0 := h ++ [Arr [] []; Obj [("should", VRef n)];
                   Obj [("bool", VRef (S n))]]).
  destruct (forEach_match (S (S n)) (S n) n ts h0 [] [])
    as (h1 & rs & Hloop & Hls & Hrs & Hframe & Hlen1); try lia.
  { unfold h0. rewrite length_app. simpl. lia. }
  { apply lookup_fresh_2. }
  { apply lookup_fresh_1. }
  { apply lookup_fresh_0. }
  { constructor. }
  assert (keeps 0 h h1) as Hk.
  { intros i o _ Hi. apply lookup_lt_Some in Hi as Hlt.
    apply Hframe; [unfold n; lia |]. by apply lookup_app_l_Some. }
  pose proof (represents_keeps _ _ _ _ Hk Hrep) as Hrep1.
  destruct (rep_must _ _ _ Hrep1) as (ms & Hm & _).
  assert (mustShouldMatch this ts h =
          (Normal this, <[base + 1 := Arr (ms ++ [VRef (S (S n))]) []]> h1))
    as ->.
  { unfold mustShouldMatch, new_array, new_object.
    unfold bind at 1, alloc at 1. unfold bind at 1, alloc at 1.
    unfold bind at 1, alloc at 1.
    rewrite !length_app. simpl length. rewrite <- !app_assoc. simpl app.
    replace (length h + 1) with (S n) by (unfold n; lia).
    replace (S n + 1) with (S (S n)) by lia. fold n. fold h0.
    unfold new_object in Hloop. unfold bind at 1. rewrite Hloop. rewrite Hthis.
    rewrite (rep_get_must base d h1) by done.
    unfold bind at 1. by rewrite (push_value _ _ _ _ _ Hm eq_refl). }
  eexists. split; [reflexivity |].
  pose proof (represents_push base d h1 1 ms (VRef (S (S n))) (Nested ts) []
                Hrep1 (or_intror (or_introl eq_refl)) Hm) as Hpush.
  rewrite app_nil_r in Hpush. apply Hpush.
  assert (forall i o, i <> base + 1 -> h1 !! i = Some o ->
                      (<[base + 1 := Arr (ms ++ [VRef (S (S n))]) []]> h1) !! i = Some o)
    as Hne by (intros; by rewrite list_lookup_insert_ne).
  exists (S (S n)), (S n), n, rs. unfold n in *.
  repeat split; try lia.
  - apply Hne; [lia |]. apply Hframe; [lia | apply lookup_fresh_2].
  - apply Hne; [lia |]. apply Hframe; [lia | apply lookup_fresh_1].
  - apply Hne; [lia | done].
  - eapply Forall2_impl; [exact Hrs |]. intros r t.
    apply leaf_at_keeps. apply keeps_insert. lia.
Qed.

Lemma set_prop_numbers k n ps :
  set_prop k (VNumber n) (map number_prop ps) = map number_prop (set_key k n ps).
Proof.
  induction ps as [| [k' n'] ps IH]; [done |].
  cbn. destruct (String.eqb k k'); [done |]. cbn. by rewrite IH.
Qed.

Lemma represents_update base d d' h i o :
  represents base d h -> (i = 2 \/ i = 5) ->
  d_should d' = d_should d -> d_must d' = d_must d -> d_sort d' = d_sort d ->
  (if Nat.eqb i 2 then
     o = Obj (("should", VRef base) :: ("must", VRef (base + 1))
              :: minimum_props (d_minimum_should_match d')) /\
     d_paging d' = d_paging d
   else
     o = Obj (("query", VRef (base + 3)) :: ("sort", VRef (base + 4))
              :: map number_prop (d_paging d')) /\
     d_minimum_should_match d' = d_minimum_should_match d) ->
  represents base d' (<[base + i := o]> h).
Proof.
  intros [(ss & Hs & Hss) (ms & Hm & Hms) Hb Hq (so & Hso & Hsos) Hr]
         Hi Es Em Eso Ho.
  assert (keeps (base + 6) h (<[base + i := o]> h)) as Hk
    by (apply keeps_insert; lia).
  assert (forall j x, j <> base + i -> h !! j = Some x ->
                      (<[base + i := o]> h) !! j = Some x) as Hne
    by (intros; by rewrite list_lookup_insert_ne).
  assert ((<[base + i := o]> h) !! (base + i) = Some o) as Heq.
  { apply list_lookup_insert_eq. apply lookup_lt_Some in Hr. lia. }
  split; rewrite ?Es, ?Em, ?Eso.
  - exists ss. split; [apply Hne; [lia | done] | by eapply clauses_at_keeps].
  - exists ms. split; [apply Hne; [lia | done] | by eapply clauses_at_keeps].
  - destruct Hi as [-> | ->]; simpl in Ho; destruct Ho as [-> E].
    + done.
    + rewrite E. apply Hne; [lia | done].
  - apply Hne; [lia | done].
  - exists so. split; [apply Hne; [lia | done] | by eapply clauses_at_keeps].
  - destruct Hi as [-> | ->]; simpl in Ho; destruct Ho as [-> E].
    + rewrite E. apply Hne; [lia | done].
    + done.
Qed.

Lemma minimumShouldMatch_represents base d h this n :
  represents base d h -> queryObject this = VRef (base + 5) ->
  exists h',
    minimumShouldMatch this n h = (Normal this, h') /\
    represents base (step d (CminimumShouldMatch n)) h'.
Proof.
  intros Hrep Hthis. unfold minimumShouldMatch. rewrite Hthis.
  rewrite (rep_get_bool base d h) by done.
  unfold bind, put. rewrite (rep_bool _ _ _ Hrep).
  eexists. split; [reflexivity |].
  apply (represents_update base d _ h 2); auto.
  simpl. split; [| done]. by destruct (d_minimum_should_match d).
Qed.

Lemma size_represents base d h this n :
  represents base d h -> queryObject this = VRef (base + 5) ->
  exists h',
    size this n h = (Normal this, h') /\ represents base (step d (Csize n)) h'.
Proof.
  intros Hrep Hthis. unfold size, bind, put. rewrite Hthis, (rep_root _ _ _ Hrep).
  eexists. split; [reflexivity |].
  apply (represents_update base d _ h 5); auto.
  simpl. split; [| done]. by rewrite set_prop_numbers.
Qed.

Lemma from_represents base d h this n :
  represents base d h -> queryObject this = VRef (base + 5) ->
  exists h',
    from this n h = (Normal this, h') /\ represents base (step d (Cfrom n)) h'.
Proof.
  intros Hrep Hthis. unfold from, bind, put. rewrite Hthis, (rep_root _ _ _ Hrep).
  eexists. split; [reflexivity |].
  apply (represents_update base d _ h 5); auto.
  simpl. split; [| done]. by rewrite set_prop_numbers.
Qed.

(** Every call succeeds on a represented document, returns the builder and
    leaves the heap representing the document one step on. *)
Lemma invoke_represents base d h this c :
  represents base d h -> queryObject this = VRef (base + 5) ->
  exists h',
    invoke c this h = (Normal this, h') /\ represents base (step d c) h'.
Proof.
  intros Hrep Hthis. destruct c; cbn [invoke step designated clause_of].
  - by apply should_leaf.
  - by apply should_leaf.
  - by apply should_leaf.
  - by apply should_leaf.
  - by apply must_leaf.
  - by apply must_leaf.
  - by apply mustShouldMatch_represents.
  - by apply must_leaf.
  - by apply must_leaf.
  - by apply must_leaf.
  - by apply minimumShouldMatch_represents.
  - by apply sort_leaf.
  - by apply size_represents.
  - by apply from_represents.
Qed.

Lemma chain_represents base cs :
  forall d h this,
    represents base d h -> queryObject this = VRef (base + 5) ->
    exists h',
      chain cs this h = (Normal this, h') /\
      represents base (fold_left step cs d) h'.
Proof.
  induction cs as [| c cs IH]; intros d h this Hrep Hthis.
  - exists h. by split.
  - destruct (invoke_represents base d h this c Hrep Hthis) as (h1 & Hrun & Hrep1).
    destruct (IH _ _ _ Hrep1 Hthis) as (h' & Hrun' & Hrep').
    exists h'. split; [| done].
    cbn [chain]. unfold bind. by rewrite Hrun.
Qed.

Lemma constructor_default (h0 : list obj) query :
  ToBoolean query = false ->
  exists h,
    constructor query h0 = (Normal {| queryObject := VRef (length h0 + 5) |}, h) /\
    represents (length h0) empty h /\ keeps 0 h0 h.
Proof.
  intros Hq. unfold constructor. rewrite Hq.
  unfold new_array, new_object, bind, alloc, ret.
  rewrite !length_app. simpl length. rewrite <- !app_assoc. simpl app.
  rewrite <- !Nat.add_assoc. simpl Nat.add.
  eexists. split; [reflexivity |]. split; [| apply keeps_app].
  assert (forall (new : list obj) i, (h0 ++ new) !! (length h0 + i) = new !! i) as Hnew.
  { intros new i. rewrite lookup_app_r by lia. f_equal. lia. }
  split; simpl.
  - exists []. split; [apply list_lookup_middle; lia | constructor].
  - exists []. split; [by rewrite Hnew | constructor].
  - by rewrite Hnew.
  - by rewrite Hnew.
  - exists []. split; [by rewrite Hnew | constructor].
  - by rewrite Hnew.
Qed.

(** *** One call on any document *)

Lemma GetV_throws (h : list obj) v k e : GetV h v k = Throw e -> e = TypeError.
Proof.
  destruct v as [| | | | | l]; cbn; try congruence.
  destruct (h !! l); congruence.
Qed.

Lemma get3 {B} (h : list obj) v k1 k2 k3 (m : val -> M B) :
  (let! q := get v k1 in let! b := get q k2 in let! s := get b k3 in m s) h =
  match resolve h v [k1; k2; k3] with
  | Some s => m s h
  | None => (Throw TypeError, h)
  end.
Proof.
  unfold bind, get. cbn [resolve].
  destruct (GetV h v k1) as [q | e] eqn:E1;
    [| by rewrite (GetV_throws _ _ _ _ E1)].
  destruct (GetV h q k2) as [b | e] eqn:E2;
    [| by rewrite (GetV_throws _ _ _ _ E2)].
  destruct (GetV h b k3) as [s | e] eqn:E3;
    [| by rewrite (GetV_throws _ _ _ _ E3)].
  done.
Qed.

Lemma get2 {B} (h : list obj) v k1 k2 (m : val -> M B) :
  (let! q := get v k1 in let! b := get q k2 in m b) h =
  match resolve h v [k1; k2] with
  | Some s => m s h
  | None => (Throw TypeError, h)
  end.
Proof.
  unfold bind, get. cbn [resolve].
  destruct (GetV h v k1) as [q | e] eqn:E1;
    [| by rewrite (GetV_throws _ _ _ _ E1)].
  destruct (GetV h q k2) as [b | e] eqn:E2;
    [| by rewrite (GetV_throws _ _ _ _ E2)].
  done.
Qed.

Lemma get1 {B} (h : list obj) v k1 (m : val -> M B) :
  (let! q := get v k1 in m q) h =
  match resolve h v [k1] with
  | Some s => m s h
  | None => (Throw TypeError, h)
  end.
Proof.
  unfold bind, get. cbn [resolve].
  destruct (GetV h v k1) as [q | e] eqn:E1;
    [| by rewrite (GetV_throws _ _ _ _ E1)].
  done.
Qed.

Lemma pushable_Some (h : list obj) s a :
  pushable h s = Some a ->
  exists es ps, s = VRef a /\ h !! a = Some (Arr es ps) /\ assoc "push" ps = None.
Proof.
  destruct s as [| | | | | l]; cbn; try done.
  destruct (h !! l) as [[ps | es ps] |] eqn:El; try done.
  destruct (assoc "push" ps) eqn:E; [done |]. intros [= <-]. eauto.
Qed.

Lemma writable_Some (h : list obj) s a :
  writable h s = Some a -> exists o, s = VRef a /\ h !! a = Some o.
Proof.
  destruct s as [| | | | | l]; cbn; try done.
  destruct (h !! l) as [o |] eqn:E; [| done]. intros [= <-]. eauto.
Qed.

(** A push on something that is not a pushable array throws, leaving at most
    the unreachable argument objects behind. *)
Lemma push_fails (h : list obj) s (arg : M val) :
  pushable h s = None ->
  (forall h1, exists x h2, arg h1 = (Normal x, h2) /\ keeps 0 h1 h2) ->
  exists h', call_push s arg h = (Throw TypeError, h') /\ keeps 0 h h'.
Proof.
  intros Hs Harg. unfold call_push, bind, GetMethod_push.
  destruct s as [| | | | | l]; cbn in Hs |- *;
    try (by exists h; split; [| apply keeps_refl]);
    try (by destruct (Harg h) as (x & h2 & -> & Hk); exists h2).
  destruct (h !! l) as [[ps | es ps] |] eqn:E;
    try (by exists h; split; [| apply keeps_refl]);
    try (by destruct (Harg h) as (x & h2 & -> & Hk); exists h2).
  destruct (assoc "push" ps); [| done].
  by destruct (Harg h) as (x & h2 & -> & Hk); exists h2.
Qed.

Lemma invoke_leaf c this kind k x :
  clause_of c = Some (Leaf kind k x) ->
  invoke c this = push_clause (designated c) this (literal kind k x).
Proof. destruct c; cbn; intros [= <- <- <-]; reflexivity. Qed.

Lemma push_clause_ok f this arg (h h1 : list obj) a es ps x :
  is_list f = true ->
  receiver h (queryObject this) f = Some a ->
  h !! a = Some (Arr es ps) ->
  arg h = (Normal x, h1) -> keeps 0 h h1 ->
  push_clause f this arg h = (Normal this, <[a := Arr (es ++ [x]) ps]> h1).
Proof.
  intros Hf Hrec Ha Harg Hk. unfold receiver in Hrec. rewrite Hf in Hrec.
  assert (forall s, pushable h s = Some a ->
            (call_push s arg ;;; ret this) h =
            (Normal this, <[a := Arr (es ++ [x]) ps]> h1)) as Hpush.
  { intros s Hs. apply pushable_Some in Hs as (es' & ps' & -> & Ha' & Hp).
    rewrite Ha in Ha'. injection Ha' as <- <-.
    unfold bind, call_push, bind, GetMethod_push, array_push, ret.
    rewrite Ha, Hp, Harg. by rewrite (Hk a _ (Nat.le_0_l _) Ha). }
  destruct f; try done; unfold push_clause; cbn [receiver_path] in Hrec.
  - rewrite get3. destruct (resolve _ _ _); [by apply Hpush | done].
  - rewrite get3. destruct (resolve _ _ _); [by apply Hpush | done].
  - rewrite get1. destruct (resolve _ _ _); [by apply Hpush | done].
Qed.

Lemma push_clause_fails f this arg (h : list obj) :
  is_list f = true ->
  receiver h (queryObject this) f = None ->
  (forall h1, exists x h2, arg h1 = (Normal x, h2) /\ keeps 0 h1 h2) ->
  exists h', push_clause f this arg h = (Throw TypeError, h') /\ keeps 0 h h'.
Proof.
  intros Hf Hrec Harg. unfold receiver in Hrec. rewrite Hf in Hrec.
  assert (forall s, pushable h s = None ->
            exists h', (call_push s arg ;;; ret this) h = (Throw TypeError, h')
                       /\ keeps 0 h h') as Hpush.
  { intros s Hs. destruct (push_fails h s arg Hs Harg) as (h' & Hrun & Hk).
    exists h'. unfold bind at 1. by rewrite Hrun. }
  destruct f; try done; unfold push_clause; cbn [receiver_path] in Hrec.
  - rewrite get3. destruct (resolve _ _ _);
      [by apply Hpush | exists h; split; [done | apply keeps_refl]].
  - rewrite get3. destruct (resolve _ _ _);
      [by apply Hpush | exists h; split; [done | apply keeps_refl]].
  - rewrite get1. destruct (resolve _ _ _);
      [by apply Hpush | exists h; split; [done | apply keeps_refl]].
Qed.

Lemma put_ok (h : list obj) s a o k x :
  writable h s = Some a -> h !! a = Some o ->
  put s k x h = (Normal tt, <[a := with_prop k x o]> h).
Proof.
  intros Hs Ha. apply writable_Some in Hs as (o' & -> & Ha').
  unfold put. rewrite Ha. by destruct o.
Qed.

Lemma put_fails (h : list obj) s k x :
  writable h s = None -> put s k x h = (Throw TypeError, h).
Proof.
  destruct s as [| | | | | l]; cbn; try done.
  by destruct (h !! l).
Qed.

(** No dangling references: reads stay inside the heap, and objects added
    later do not change what is found. *)
Lemma wf_lookup (h : list obj) l o :
  wf_heap h = true -> h !! l = Some o -> wf_obj (length h) o = true.
Proof.
  intros Hwf Hl. unfold wf_heap in Hwf. rewrite forallb_forall in Hwf.
  apply Hwf. apply list_elem_of_In. by eapply list_elem_of_lookup_2.
Qed.

Lemma wf_assoc n ps k x :
  wf_props n ps = true -> assoc k ps = Some x -> wf_val n x = true.
Proof.
  induction ps as [| [k' v] ps IH]; [done |]. cbn.
  intros [Hv Hps]%andb_prop. destruct (String.eqb k k').
  - by intros [= <-].
  - by apply IH.
Qed.

Lemma wf_GetV (h : list obj) v k x :
  wf_heap h = true -> GetV h v k = Normal x -> wf_val (length h) x = true.
Proof.
  intros Hwf. destruct v as [| | | | | l]; cbn; try congruence;
    try (by intros [= <-]).
  destruct (h !! l) as [o |] eqn:El; [| done].
  pose proof (wf_lookup _ _ _ Hwf El) as Ho.
  destruct (assoc k (own_props o)) as [y |] eqn:Ek; cbn; intros [= <-]; [| done].
  destruct o as [ps | es ps]; cbn in *.
  - by eapply wf_assoc.
  - apply andb_prop in Ho as [_ Ho]. by eapply wf_assoc.
Qed.

Lemma wf_lookup_keeps (h h1 : list obj) l :
  keeps 0 h h1 -> wf_val (length h) (VRef l) = true -> h1 !! l = h !! l.
Proof.
  intros Hk Hl. cbn in Hl. apply Nat.ltb_lt in Hl.
  destruct (lookup_lt_is_Some_2 h l Hl) as [o Ho].
  rewrite Ho. apply Hk; [lia | done].
Qed.

Lemma GetV_keeps (h h1 : list obj) v k :
  keeps 0 h h1 -> wf_val (length h) v = true -> GetV h1 v k = GetV h v k.
Proof.
  intros Hk Hv. destruct v as [| | | | | l]; try done.
  cbn. by rewrite (wf_lookup_keeps h h1 l).
Qed.

Lemma resolve_keeps (h h1 : list obj) path :
  wf_heap h = true -> keeps 0 h h1 ->
  forall v, wf_val (length h) v = true -> resolve h1 v path = resolve h v path.
Proof.
  intros Hwf Hk. induction path as [| k path IH]; intros v Hv; [done |].
  cbn [resolve]. rewrite (GetV_keeps h h1) by done.
  destruct (GetV h v k) as [x | e] eqn:E; [| done].
  apply IH. by eapply wf_GetV.
Qed.

Lemma wf_resolve (h : list obj) path :
  wf_heap h = true ->
  forall v x, wf_val (length h) v = true -> resolve h v path = Some x ->
              wf_val (length h) x = true.
Proof.
  intros Hwf. induction path as [| k path IH]; intros v x Hv; cbn [resolve].
  - by intros [= <-].
  - destruct (GetV h v k) as [y | e] eqn:E; [| done].
    apply IH. by eapply wf_GetV.
Qed.

Lemma receiver_keeps (h h1 : list obj) v f :
  wf_heap h = true -> wf_val (length h) v = true -> keeps 0 h h1 ->
  receiver h1 v f = receiver h v f.
Proof.
  intros Hwf Hv Hk. unfold receiver. rewrite (resolve_keeps h h1) by done.
  destruct (resolve h v (receiver_path f)) as [s |] eqn:E; [| done].
  pose proof (wf_resolve _ _ Hwf _ _ Hv E) as Hs.
  destruct s as [| | | | | l]; try by destruct (is_list f).
  unfold pushable, writable. by rewrite (wf_lookup_keeps h h1 l).
Qed.

(** Without the assumption, what is found stays found. *)
Lemma resolve_grows (h h1 : list obj) path :
  keeps 0 h h1 ->
  forall v x, resolve h v path = Some x -> resolve h1 v path = Some x.
Proof.
  intros Hk. induction path as [| k path IH]; intros v x; [done |].
  cbn [resolve]. destruct (GetV h v k) as [y | e] eqn:E; [| done].
  assert (GetV h1 v k = Normal y) as ->; [| by apply IH].
  destruct v as [| | | | | l]; try done. cbn in E |- *.
  destruct (h !! l) as [o |] eqn:El; [| done].
  by rewrite (Hk l o (Nat.le_0_l _) El).
Qed.

Lemma receiver_grows (h h1 : list obj) v f a :
  keeps 0 h h1 -> receiver h v f = Some a -> receiver h1 v f = Some a.
Proof.
  intros Hk. unfold receiver.
  destruct (resolve h v (receiver_path f)) as [s |] eqn:E; [| done].
  rewrite (resolve_grows h h1 _ Hk _ _ E).
  destruct s as [| | | | | l]; try by destruct (is_list f).
  unfold pushable, writable.
  destruct (h !! l) as [o |] eqn:El; [| by destruct (is_list f)].
  by rewrite (Hk l o (Nat.le_0_l _) El).
Qed.

Lemma literal_run kind k x (h : list obj) :
  literal kind k x h =
  (Normal (VRef (S (length h))),
   h ++ [Obj [(k, VString x)]; Obj [(kind, VRef (length h))]]).
Proof.
  unfold literal, new_object, bind, alloc. rewrite length_app, <- app_assoc.
  cbn. by replace (length h + 1) with (S (length h)) by lia.
Qed.

Lemma clause_is_list c cl : clause_of c = Some cl -> is_list (designated c) = true.
Proof. by destruct c. Qed.

Lemma receiver_list (h : list obj) v f a :
  is_list f = true -> receiver h v f = Some a ->
  exists es ps, h !! a = Some (Arr es ps).
Proof.
  intros Hf. unfold receiver. rewrite Hf.
  destruct (resolve h v (receiver_path f)) as [s |]; [| done].
  intros (es & ps & _ & Ha & _)%pushable_Some. eauto.
Qed.

Lemma leaf_ok c this (h : list obj) a kind k x :
  clause_of c = Some (Leaf kind k x) ->
  receiver h (queryObject this) (designated c) = Some a ->
  exists h' o,
    invoke c this h = (Normal this, h') /\ h !! a = Some o /\
    (forall l o', l <> a -> h !! l = Some o' -> h' !! l = Some o') /\
    effect c h a o h'.
Proof.
  intros Hc Hrec. pose proof (clause_is_list _ _ Hc) as Hf.
  destruct (receiver_list _ _ _ _ Hf Hrec) as (es & ps & Ha).
  rewrite (invoke_leaf _ _ _ _ _ Hc).
  rewrite (push_clause_ok _ _ _ h _ a es ps _ Hf Hrec Ha (literal_run kind k x h))
    by apply keeps_app.
  eexists _, _. split; [reflexivity |]. split; [exact Ha |]. split.
  - intros l o' Hl Hlo. by apply lookup_push_ne.
  - unfold effect. rewrite Hc. exists es, ps, (VRef (S (length h))).
    split; [done |]. split; [by eapply lookup_push_eq |].
    apply lookup_lt_Some in Ha. apply leaf_at_fresh; lia.
Qed.

(** [mustShouldMatch] up to its final push: the nested clause is built from
    fresh objects only. *)
Lemma mustShouldMatch_builds this ts (h : list obj) :
  exists h1,
    mustShouldMatch this ts h =
      push_clause Must this (ret (VRef (S (S (length h))))) h1 /\
    keeps 0 h h1 /\
    clause_at (length h) h1 (VRef (S (S (length h)))) (Nested ts).
Proof.
  set (n := length h).
  set (h0 := h ++ [Arr [] []; Obj [("should", VRef n)];
                   Obj [("bool", VRef (S n))]]).
  destruct (forEach_match (S (S n)) (S n) n ts h0 [] [])
    as (h1 & rs & Hloop & Hls & Hrs & Hframe & Hlen1); try lia.
  { unfold h0. rewrite length_app. simpl. lia. }
  { apply lookup_fresh_2. }
  { apply lookup_fresh_1. }
  { apply lookup_fresh_0. }
  { constructor. }
  exists h1. split; [| split].
  - unfold mustShouldMatch, new_array, new_object.
    unfold bind at 1, alloc at 1. unfold bind at 1, alloc at 1.
    unfold bind at 1, alloc at 1.
    rewrite !length_app. simpl length. rewrite <- !app_assoc. simpl app.
    replace (length h + 1) with (S n) by (unfold n; lia).
    replace (S n + 1) with (S (S n)) by lia. fold n. fold h0.
    unfold new_object in Hloop. unfold bind at 1. by rewrite Hloop.
  - intros i o _ Hi. apply lookup_lt_Some in Hi as Hlt.
    apply Hframe; [unfold n; lia |]. by apply lookup_app_l_Some.
  - exists (S (S n)), (S n), n, rs. repeat split; try lia; try done.
    + apply Hframe; [lia | apply lookup_fresh_2].
    + apply Hframe; [lia | apply lookup_fresh_1].
Qed.

Lemma nested_ok this ts (h : list obj) a :
  receiver h (queryObject this) Must = Some a ->
  exists h' o,
    mustShouldMatch this ts h = (Normal this, h') /\ h !! a = Some o /\
    (forall l o', l <> a -> h !! l = Some o' -> h' !! l = Some o') /\
    effect (CmustShouldMatch ts) h a o h'.
Proof.
  intros Hrec.
  destruct (receiver_list h _ Must a eq_refl Hrec) as (es & ps & Ha).
  destruct (mustShouldMatch_builds this ts h) as (h1 & -> & Hk & Hcl).
  pose proof (receiver_grows _ _ _ _ _ Hk Hrec) as Hrec1.
  pose proof (Hk a _ (Nat.le_0_l _) Ha) as Ha1.
  rewrite (push_clause_ok Must this (ret (VRef (S (S (length h))))) h1 h1 a
             es ps (VRef (S (S (length h))))
             eq_refl Hrec1 Ha1 eq_refl (keeps_refl _ _)).
  apply lookup_lt_Some in Ha as Hlt.
  eexists _, _. split; [reflexivity |]. split; [exact Ha |]. split.
  - intros l o' Hl Hlo. rewrite list_lookup_insert_ne by done.
    by apply Hk; [lia |].
  - exists es, ps, (VRef (S (S (length h)))). split; [done |]. split.
    + apply list_lookup_insert_eq. by apply lookup_lt_Some in Ha1.
    + eapply clause_at_keeps; [| exact Hcl]. by apply keeps_insert.
Qed.

Lemma setter_ok c this (h : list obj) a k n :
  setting_of c = Some (k, n) ->
  receiver h (queryObject this) (designated c) = Some a ->
  exists h' o,
    invoke c this h = (Normal this, h') /\ h !! a = Some o /\
    (forall l o', l <> a -> h !! l = Some o' -> h' !! l = Some o') /\
    effect c h a o h'.
Proof.
  intros Hc Hrec. unfold receiver in Hrec.
  assert (forall s, writable h s = Some a ->
            exists h' o,
              (put s k (VNumber n) ;;; ret this) h = (Normal this, h') /\
              h !! a = Some o /\
              (forall l o', l <> a -> h !! l = Some o' -> h' !! l = Some o') /\
              h' = <[a := with_prop k (VNumber n) o]> h) as Hput.
  { intros s Hs. destruct (writable_Some _ _ _ Hs) as (o & -> & Ha).
    exists (<[a := with_prop k (VNumber n) o]> h), o.
    unfold bind. rewrite (put_ok _ _ _ _ _ _ Hs Ha).
    repeat split; try done. intros l o' Hl Hlo.
    by rewrite list_lookup_insert_ne. }
  destruct c; try done; cbn in Hc; injection Hc as <- <-;
    cbn [designated receiver_path is_list] in Hrec;
    unfold effect; cbn [clause_of setting_of invoke].
  - unfold minimumShouldMatch. rewrite get2.
    destruct (resolve _ _ _) as [s |]; [by apply Hput | done].
  - unfold size. cbn [resolve] in Hrec. by apply Hput.
  - unfold from. cbn [resolve] in Hrec. by apply Hput.
Qed.

(** On a document that has what the call needs, the call succeeds, returns
    the builder, and changes no object that was there except its receiver. *)
Lemma invoke_ok c this (h : list obj) a :
  receiver h (queryObject this) (designated c) = Some a ->
  exists h' o,
    invoke c this h = (Normal this, h') /\ h !! a = Some o /\
    (forall l o', l <> a -> h !! l = Some o' -> h' !! l = Some o') /\
    effect c h a o h'.
Proof.
  intros Hrec. destruct (clause_of c) as [[kind k x | ts] |] eqn:Hc.
  - by eapply leaf_ok.
  - destruct c; try done. injection Hc as <-. by apply nested_ok.
  - destruct (setting_of c) as [[k n] |] eqn:Hs; [by eapply setter_ok |].
    by destruct c.
Qed.

(** On a document that lacks it, the call throws TypeError and changes no
    object that was there. *)
Lemma invoke_fails c this (h : list obj) :
  wf_heap h = true -> wf_val (length h) (queryObject this) = true ->
  receiver h (queryObject this) (designated c) = None ->
  exists h', invoke c this h = (Throw TypeError, h') /\ keeps 0 h h'.
Proof.
  intros Hwf Hv Hrec. destruct (clause_of c) as [[kind k x | ts] |] eqn:Hc.
  - rewrite (invoke_leaf _ _ _ _ _ Hc).
    apply push_clause_fails; [by eapply clause_is_list | done |].
    intros h1. rewrite literal_run. eexists _, _. split; [done |].
    apply keeps_app.
  - destruct c; try done. injection Hc as ->. cbn [invoke designated] in *.
    destruct (mustShouldMatch_builds this ts h) as (h1 & -> & Hk & _).
    rewrite <- (receiver_keeps h h1) in Hrec by done.
    destruct (push_clause_fails Must this (ret (VRef (S (S (length h))))) h1
                eq_refl Hrec) as (h' & Hrun & Hk').
    { intros h2. eexists _, _. split; [reflexivity | apply keeps_refl]. }
    exists h'. split; [done | by eapply keeps_trans].
  - unfold receiver in Hrec.
    assert (forall s k n, writable h s = None ->
              (put s k (VNumber n) ;;; ret this) h = (Throw TypeError, h))
      as Hput by (intros s k n Hs; unfold bind; by rewrite put_fails).
    exists h. split; [| apply keeps_refl].
    destruct c; try done; cbn [designated receiver_path is_list] in Hrec;
      cbn [invoke].
    + unfold minimumShouldMatch. rewrite get2.
      destruct (resolve _ _ _) as [s |]; [by apply Hput | done].
    + unfold size. cbn [resolve] in Hrec. by apply Hput.
    + unfold from. cbn [resolve] in Hrec. by apply Hput.
Qed.

Lemma snapshot_clause z (h : list obj) r cl :
  clause_at z h r cl -> snapshot h r = Normal (clause_tree cl).
Proof.
  intros Hcl. unfold snapshot.
  apply (walk_clause z); [done | constructor |].
  apply clause_at_bound in Hcl. lia.
Qed.

(** A list mutator on a document that has its list: the list gets one more
    element, a reference to the clause of the call. *)
Lemma invoke_appends c this (h : list obj) a cl :
  clause_of c = Some cl ->
  receiver h (queryObject this) (designated c) = Some a ->
  exists h' es ps r,
    invoke c this h = (Normal this, h') /\
    h !! a = Some (Arr es ps) /\
    h' !! a = Some (Arr (es ++ [r]) ps) /\
    snapshot h' r = Normal (clause_tree cl).
Proof.
  intros Hc Hrec.
  destruct (invoke_ok c this h a Hrec) as (h' & o & Hrun & Ha & _ & Heff).
  unfold effect in Heff. rewrite Hc in Heff.
  destruct Heff as (es & ps & r & -> & Ha' & Hcl).
  exists h', es, ps, r. repeat split; try done. by eapply snapshot_clause.
Qed.

Lemma returns_ret this : returns this (ret this).
Proof. intros h. exists h. by left. Qed.

Lemma returns_bind {A} this (m : M A) (k : A -> M QueryBuilder) :
  (forall x, returns this (k x)) -> returns this (bind m k).
Proof.
  intros Hk h. unfold bind. destruct (m h) as [[x | e] h1].
  - apply Hk.
  - exists h1. right. by exists e.
Qed.

(** Every mutator returns the builder it was called on, or throws. *)
Lemma invoke_returns c this : returns this (invoke c this).
Proof.
  destruct c; cbn [invoke];
    unfold shouldPrefix, shouldTerm, shouldWildcard, shouldMatch, mustWildcard,
      mustMatch, mustShouldMatch, mustTerm, ofType, mustPrefix,
      minimumShouldMatch, sort, size, from;
    repeat (apply returns_bind; intros); apply returns_ret.
Qed.

(** *** Setting a property twice *)

Lemma set_prop_twice k (x y : val) ps :
  set_prop k y (set_prop k x ps) = set_prop k y ps.
Proof.
  induction ps as [| [k' v] ps IH]; cbn.
  - by rewrite String.eqb_refl.
  - destruct (String.eqb k k') eqn:E; cbn; rewrite E; [done | by rewrite IH].
Qed.

Lemma with_prop_twice k x y o :
  with_prop k y (with_prop k x o) = with_prop k y o.
Proof. destruct o; cbn; by rewrite set_prop_twice. Qed.

Lemma assoc_set_prop_eq k (x : val) ps : assoc k (set_prop k x ps) = Some x.
Proof.
  induction ps as [| [k' v] ps IH]; cbn.
  - by rewrite String.eqb_refl.
  - destruct (String.eqb k k') eqn:E; cbn; by rewrite E.
Qed.

Lemma assoc_set_prop_ne k k' (x : val) ps :
  String.eqb k k' = false -> assoc k (set_prop k' x ps) = assoc k ps.
Proof.
  intros Hne. induction ps as [| [k'' v] ps IH]; cbn.
  - by rewrite Hne.
  - destruct (String.eqb k' k'') eqn:E; cbn.
    + apply String.eqb_eq in E as <-. by rewrite Hne.
    + by rewrite IH.
Qed.

Lemma own_props_with_prop k x o :
  own_props (with_prop k x o) = set_prop k x (own_props o).
Proof. by destruct o. Qed.

Lemma GetV_put_ne (h : list obj) a o k x v k' :
  h !! a = Some o -> String.eqb k' k = false ->
  GetV (<[a := with_prop k x o]> h) v k' = GetV h v k'.
Proof.
  intros Ha Hne. destruct v as [| | | | | l]; try done. cbn.
  destruct (decide (l = a)) as [-> | Hl].
  - rewrite list_lookup_insert_eq by (by eapply lookup_lt_Some).
    rewrite Ha, own_props_with_prop. by rewrite assoc_set_prop_ne.
  - by rewrite list_lookup_insert_ne.
Qed.

Lemma GetV_put_eq (h : list obj) a o k x :
  h !! a = Some o ->
  GetV (<[a := with_prop k x o]> h) (VRef a) k = Normal x.
Proof.
  intros Ha. cbn.
  rewrite list_lookup_insert_eq by (by eapply lookup_lt_Some).
  by rewrite own_props_with_prop, assoc_set_prop_eq.
Qed.

Lemma resolve_put (h : list obj) a o k x path :
  h !! a = Some o -> Forall (fun k' => String.eqb k' k = false) path ->
  forall v, resolve (<[a := with_prop k x o]> h) v path = resolve h v path.
Proof.
  intros Ha Hpath. induction Hpath as [| k' path Hk' _ IH]; intros v; [done |].
  cbn [resolve]. rewrite (GetV_put_ne h a o k x v k' Ha Hk').
  by destruct (GetV h v k').
Qed.

Lemma receiver_put (h : list obj) a o k x v f :
  h !! a = Some o -> setter_key k ->
  receiver (<[a := with_prop k x o]> h) v f = receiver h v f.
Proof.
  intros Ha Hk. unfold receiver. rewrite (resolve_put h a o k x) by
    (try done; destruct Hk as [-> | [-> | ->]]; destruct f; by repeat constructor).
  destruct (resolve h v (receiver_path f)) as [s |]; [| done].
  destruct s as [| | | | | l]; try done.
  unfold pushable, writable. destruct (decide (l = a)) as [-> | Hl].
  - rewrite list_lookup_insert_eq by (by eapply lookup_lt_Some). rewrite Ha.
    destruct o as [ps | es ps]; cbn; [done |].
    rewrite assoc_set_prop_ne; [done |].
    by destruct Hk as [-> | [-> | ->]].
  - by rewrite list_lookup_insert_ne.
Qed.

Lemma setting_key c k n : setting_of c = Some (k, n) -> setter_key k.
Proof. destruct c; cbn; intros [= <- <-]; unfold setter_key; auto. Qed.

Lemma setter_fails c this (h : list obj) k n :
  setting_of c = Some (k, n) ->
  receiver h (queryObject this) (designated c) = None ->
  invoke c this h = (Throw TypeError, h).
Proof.
  intros Hc Hrec. unfold receiver in Hrec.
  assert (forall s k n, writable h s = None ->
            (put s k (VNumber n) ;;; ret this) h = (Throw TypeError, h))
    as Hput by (intros s k' n' Hs; unfold bind; by rewrite put_fails).
  destruct c; try done; cbn [designated receiver_path is_list] in Hrec;
    cbn [invoke].
  - unfold minimumShouldMatch. rewrite get2.
    destruct (resolve _ _ _) as [s |]; [by apply Hput | done].
  - unfold size. cbn [resolve] in Hrec. by apply Hput.
  - unfold from. cbn [resolve] in Hrec. by apply Hput.
Qed.

Lemma setter_runs c this (h : list obj) a k n :
  setting_of c = Some (k, n) ->
  receiver h (queryObject this) (designated c) = Some a ->
  exists o,
    h !! a = Some o /\
    invoke c this h = (Normal this, <[a := with_prop k (VNumber n) o]> h).
Proof.
  intros Hc Hrec.
  destruct (setter_ok c this h a k n Hc Hrec) as (h' & o & Hrun & Ha & _ & Heff).
  unfold effect in Heff. rewrite Hc in Heff.
  assert (clause_of c = None) as Hcl by (by destruct c). rewrite Hcl in Heff.
  exists o. by rewrite Hrun, Heff.
Qed.

(** The second of two calls of one setter wins, and nothing of the first is
    left. *)
Lemma setter_twice c1 c2 k x y this (h : list obj) :
  setting_of c1 = Some (k, x) -> setting_of c2 = Some (k, y) ->
  designated c1 = designated c2 ->
  chain [c1; c2] this h = chain [c2] this h /\
  forall a, receiver h (queryObject this) (designated c2) = Some a ->
    exists h', chain [c1; c2] this h = (Normal this, h') /\
               GetV h' (VRef a) k = Normal (VNumber y).
Proof.
  intros H1 H2 Hd. cbn [chain]. unfold bind at 1 3 4, ret.
  destruct (receiver h (queryObject this) (designated c2)) as [a |] eqn:Hrec.
  - rewrite <- Hd in Hrec.
    destruct (setter_runs c1 this h a k x H1 Hrec) as (o & Ha & ->).
    rewrite Hd in Hrec. unfold bind.
    destruct (setter_runs c2 this h a k y H2 Hrec) as (o' & Ha' & ->).
    assert (o' = o) as -> by congruence.
    pose proof (setting_key _ _ _ H1) as Hk.
    assert (receiver (<[a := with_prop k (VNumber x) o]> h) (queryObject this)
              (designated c2) = Some a) as Hrec1
      by (by rewrite receiver_put).
    destruct (setter_runs c2 this _ a k y H2 Hrec1) as (o1 & Ha1 & ->).
    rewrite list_lookup_insert_eq in Ha1 by (by eapply lookup_lt_Some).
    injection Ha1 as <-.
    rewrite list_insert_insert_eq, with_prop_twice.
    split; [done |]. intros a' [= <-]. eexists. split; [done |].
    by apply GetV_put_eq.
  - rewrite <- Hd in Hrec. rewrite (setter_fails c1 this h k x H1 Hrec).
    rewrite Hd in Hrec. rewrite (setter_fails c2 this h k y H2 Hrec).
    split; [done |]. intros a [=].
Qed.

(** *** Chains from the default document *)

Lemma chain_app cs1 cs2 this h :
  chain (cs1 ++ cs2) this h =
  (let! this' := chain cs1 this in chain cs2 this') h.
Proof.
  revert this h. induction cs1 as [| c cs1 IH]; intros this h.
  - done.
  - cbn [chain app]. unfold bind in *.
    destruct (invoke c this h) as [[b | e] h1]; [| done].
    by rewrite IH.
Qed.

(** The whole development in one statement: a chain on a new builder never
    throws, returns the builder, and leaves a heap that holds the document
    described by [Doc.after]. *)
Lemma newBuilder_represents (h0 : list obj) cs :
  exists h,
    newBuilder cs h0 = (Normal {| queryObject := VRef (length h0 + 5) |}, h) /\
    represents (length h0) (after cs) h.
Proof.
  destruct (constructor_default h0 VUndefined eq_refl) as (h1 & Hnew & Hrep & _).
  destruct (chain_represents (length h0) cs empty h1
              {| queryObject := VRef (length h0 + 5) |} Hrep eq_refl)
    as (h & Hrun & Hrep').
  exists h. split; [| done].
  unfold newBuilder, bind. by rewrite Hnew.
Qed.

Lemma built_after h0 cs : built h0 cs = Some (to_tree (after cs)).
Proof.
  destruct (newBuilder_represents h0 cs) as (h & Hrun & Hrep).
  unfold built, document_of. rewrite Hrun. cbn [queryObject].
  by rewrite (snapshot_represents _ _ _ Hrep).
Qed.

Lemma after_snoc cs c : after (cs ++ [c]) = step (after cs) c.
Proof. unfold after. by rewrite fold_left_app. Qed.

Lemma calls_for_app f cs1 cs2 :
  calls_for f (cs1 ++ cs2) = calls_for f cs1 ++ calls_for f cs2.
Proof. apply List.filter_app. Qed.

Lemma clauses_for_app f cs1 cs2 :
  clauses_for f (cs1 ++ cs2) = clauses_for f cs1 ++ clauses_for f cs2.
Proof. unfold clauses_for. by rewrite calls_for_app, omap_app. Qed.

Lemma after_lists cs :
  d_should (after cs) = clauses_for Should cs /\
  d_must (after cs) = clauses_for Must cs /\
  d_sort (after cs) = clauses_for Sort cs.
Proof.
  induction cs as [| c cs IH] using rev_ind; [done |].
  rewrite after_snoc, !clauses_for_app. destruct IH as (Hs & Hm & Hso).
  destruct c; cbn; rewrite ?Hs, ?Hm, ?Hso, ?app_nil_r; done.
Qed.

Lemma clauses_for_length f cs :
  f = Should \/ f = Must \/ f = Sort ->
  length (clauses_for f cs) = length (calls_for f cs).
Proof.
  intros Hf. induction cs as [| c cs IH]; [done |].
  unfold clauses_for, calls_for in *. cbn [List.filter].
  destruct (field_eqb (designated c) f) eqn:E; [| done].
  destruct c; cbn; try (by rewrite IH);
    destruct Hf as [-> | [-> | ->]]; done.
Qed.

Lemma field_should d :
  field_of Should (to_tree d) = Some (TArray (map clause_tree (d_should d))).
Proof. reflexivity. Qed.

Lemma field_must d :
  field_of Must (to_tree d) = Some (TArray (map clause_tree (d_must d))).
Proof. reflexivity. Qed.

Lemma field_sort d :
  field_of Sort (to_tree d) = Some (TArray (map clause_tree (d_sort d))).
Proof. reflexivity. Qed.

Lemma field_minimum d :
  field_of MinimumShouldMatch (to_tree d) =
  TNumber <$> d_minimum_should_match d.
Proof. unfold field_of, to_tree. cbn. by destruct (d_minimum_should_match d). Qed.

Lemma member_numbers k ps :
  member k (map number_member ps) = TNumber <$> get_key k ps.
Proof.
  induction ps as [| [k' n] ps IH]; [done |].
  cbn. by destruct (String.eqb k k').
Qed.

Lemma field_size d :
  field_of Size (to_tree d) = TNumber <$> get_key "size" (d_paging d).
Proof.
  change (field_of Size (to_tree d))
    with (match member "size" (map number_member (d_paging d)) with
          | Some t => Some t
          | None => None
          end).
  rewrite member_numbers. by destruct (get_key "size" (d_paging d)).
Qed.

Lemma field_from d :
  field_of From (to_tree d) = TNumber <$> get_key "from" (d_paging d).
Proof.
  change (field_of From (to_tree d))
    with (match member "from" (map number_member (d_paging d)) with
          | Some t => Some t
          | None => None
          end).
  rewrite member_numbers. by destruct (get_key "from" (d_paging d)).
Qed.

Lemma get_set_key_eq k n ps : get_key k (set_key k n ps) = Some n.
Proof.
  induction ps as [| [k' n'] ps IH]; cbn.
  - by rewrite String.eqb_refl.
  - destruct (String.eqb k k') eqn:E; cbn; by rewrite E.
Qed.

Lemma get_set_key_ne k k' n ps :
  String.eqb k k' = false -> get_key k (set_key k' n ps) = get_key k ps.
Proof.
  intros Hne. induction ps as [| [k'' n'] ps IH]; cbn.
  - by rewrite Hne.
  - destruct (String.eqb k' k'') eqn:E; cbn.
    + apply String.eqb_eq in E as <-. by rewrite Hne.
    + by rewrite IH.
Qed.

(** *** What a call leaves alone *)

Lemma field_frame d c f :
  field_eqb f (designated c) = false ->
  field_of f (to_tree (step d c)) = field_of f (to_tree d).
Proof.
  intros Hf.
  destruct f; rewrite ?field_should, ?field_must, ?field_sort, ?field_minimum,
    ?field_size, ?field_from; destruct c; try done; cbn;
    by rewrite get_set_key_ne.
Qed.

Lemma field_grows d c cl :
  clause_of c = Some cl ->
  exists xs,
    field_of (designated c) (to_tree d) = Some (TArray xs) /\
    field_of (designated c) (to_tree (step d c)) =
      Some (TArray (xs ++ [clause_tree cl])).
Proof.
  intros Hc. destruct c; cbn in Hc; try done; injection Hc as <-;
    cbn [designated step clause_of];
    rewrite ?field_should, ?field_must, ?field_sort; cbn;
    eexists; (split; [reflexivity |]); by rewrite map_app.
Qed.

(** Objects that are not the receiver of the call are as they were, whether
    the call succeeds or throws. *)
Lemma invoke_frame c this (h : list obj) l o :
  wf_heap h = true -> wf_val (length h) (queryObject this) = true ->
  h !! l = Some o ->
  receiver h (queryObject this) (designated c) <> Some l ->
  snd (invoke c this h) !! l = Some o.
Proof.
  intros Hwf Hv Hl Hne.
  destruct (receiver h (queryObject this) (designated c)) as [a |] eqn:Hrec.
  - destruct (invoke_ok c this h a Hrec) as (h' & o' & -> & _ & Hframe & _).
    cbn. apply Hframe; [congruence | done].
  - destruct (invoke_fails c this h Hwf Hv Hrec) as (h' & -> & Hk).
    cbn. apply Hk; [lia | done].
Qed.

(** Every object keeps the properties the call does not write. *)
Lemma invoke_props c this (h : list obj) l o k :
  wf_heap h = true -> wf_val (length h) (queryObject this) = true ->
  h !! l = Some o -> written_key c <> Some k ->
  exists o',
    snd (invoke c this h) !! l = Some o' /\
    assoc k (own_props o') = assoc k (own_props o).
Proof.
  intros Hwf Hv Hl Hk.
  destruct (receiver h (queryObject this) (designated c)) as [a |] eqn:Hrec.
  - destruct (invoke_ok c this h a Hrec) as (h' & oa & -> & Ha & Hframe & Heff).
    cbn. destruct (decide (l = a)) as [-> | Hla];
      [| exists o; split; [by apply Hframe | done]].
    assert (oa = o) as -> by congruence.
    unfold effect in Heff. unfold written_key in Hk.
    destruct (clause_of c) as [cl |].
    + destruct Heff as (es & ps & r & -> & Ha' & _). by exists (Arr (es ++ [r]) ps).
    + destruct (setting_of c) as [[k' n] |]; [| done]. subst h'.
      exists (with_prop k' (VNumber n) o).
      rewrite list_lookup_insert_eq by (by eapply lookup_lt_Some).
      split; [done |]. rewrite own_props_with_prop.
      apply assoc_set_prop_ne. apply String.eqb_neq. cbn in Hk. congruence.
  - destruct (invoke_fails c this h Hwf Hv Hrec) as (h' & -> & Hkeep).
    cbn. exists o. split; [apply Hkeep; [lia | done] | done].
Qed.

(** So every path of properties the call does not write leads where it
    led. *)
Lemma invoke_paths c this (h : list obj) path :
  wf_heap h = true -> wf_val (length h) (queryObject this) = true ->
  Forall (fun k => written_key c <> Some k) path ->
  forall v, wf_val (length h) v = true ->
    resolve (snd (invoke c this h)) v path = resolve h v path.
Proof.
  intros Hwf Hthis Hpath.
  induction Hpath as [| k path Hk _ IH]; intros v Hv; [done |].
  cbn [resolve].
  assert (GetV (snd (invoke c this h)) v k = GetV h v k) as ->.
  { destruct v as [| | | | | l]; try done. cbn in Hv |- *.
    apply Nat.ltb_lt in Hv. destruct (lookup_lt_is_Some_2 h l Hv) as [o Ho].
    destruct (invoke_props c this h l o k Hwf Hthis Ho Hk) as (o' & -> & ->).
    by rewrite Ho. }
  destruct (GetV h v k) as [x | e] eqn:E; [| done].
  apply IH. by eapply wf_GetV.
Qed.

(** *** The text of the document *)


Lemma seen_through_build_after (h0 : list obj) cs c :
  seen_through_build h0 cs c = Some (to_tree (after (cs ++ [c]))).
Proof.
  destruct (newBuilder_represents h0 cs) as (h & Hrun & Hrep).
  destruct (invoke_represents _ _ _ {| queryObject := VRef (length h0 + 5) |} c
              Hrep eq_refl) as (h' & Hrun' & Hrep').
  unfold seen_through_build, bind, build, ret. rewrite Hrun. cbn [queryObject].
  rewrite Hrun'. rewrite (snapshot_represents _ _ _ Hrep').
  by rewrite after_snoc.
Qed.

(** *** Heaps without dangling references stay so *)

Lemma wf_val_mono n n' v : n <= n' -> wf_val n v = true -> wf_val n' v = true.
Proof.
  intros Hn. destruct v as [| | | | | l]; try done. unfold wf_val.
  rewrite !Nat.ltb_lt. lia.
Qed.

Lemma wf_props_mono n n' ps :
  n <= n' -> wf_props n ps = true -> wf_props n' ps = true.
Proof.
  intros Hn. unfold wf_props. rewrite !forallb_forall.
  intros H p Hp. eapply wf_val_mono; [done | by apply H].
Qed.

Lemma wf_obj_mono n n' o : n <= n' -> wf_obj n o = true -> wf_obj n' o = true.
Proof.
  intros Hn. destruct o as [ps | es ps]; cbn.
  - by apply wf_props_mono.
  - intros [Hes Hps]%andb_prop. apply andb_true_intro. split.
    + rewrite forallb_forall in *. intros x Hx.
      eapply wf_val_mono; [done | by apply Hes].
    + by eapply wf_props_mono.
Qed.

Lemma wf_heap_lookup (h : list obj) :
  wf_heap h = true <->
  forall l o, h !! l = Some o -> wf_obj (length h) o = true.
Proof.
  split.
  - intros Hwf l o. by apply wf_lookup.
  - intros H. unfold wf_heap. rewrite forallb_forall. intros o Ho.
    apply list_elem_of_In, list_elem_of_lookup_1 in Ho as [l Hl]. by eapply H.
Qed.

Lemma wf_heap_alloc (h : list obj) o :
  wf_heap h = true -> wf_obj (length h) o = true -> wf_heap (h ++ [o]) = true.
Proof.
  intros Hwf Ho. apply wf_heap_lookup. intros l o' Hl.
  rewrite length_app. cbn.
  apply lookup_app_Some in Hl as [Hl | [_ Hl]].
  - eapply wf_obj_mono; [| by eapply wf_lookup]. lia.
  - apply list_lookup_singleton_Some in Hl as [_ <-].
    eapply wf_obj_mono; [| done]. lia.
Qed.

Lemma wf_heap_insert (h : list obj) l o :
  wf_heap h = true -> wf_obj (length h) o = true ->
  wf_heap (<[l := o]> h) = true.
Proof.
  intros Hwf Ho. apply wf_heap_lookup. intros l' o' Hl.
  rewrite length_insert.
  destruct (decide (l = l')) as [<- | Hne].
  - destruct (decide (l < length h)) as [Hlt | Hge].
    + rewrite list_lookup_insert_eq in Hl by done. by injection Hl as <-.
    + rewrite list_insert_ge in Hl by lia. by eapply wf_lookup.
  - rewrite list_lookup_insert_ne in Hl by done. by eapply wf_lookup.
Qed.

Lemma wf_set_prop n k x ps :
  wf_val n x = true -> wf_props n ps = true ->
  wf_props n (set_prop k x ps) = true.
Proof.
  intros Hx. unfold wf_props. induction ps as [| [k' v] ps IH]; cbn.
  - by rewrite Hx.
  - intros [Hv Hps]%andb_prop. destruct (String.eqb k k'); cbn.
    + by rewrite Hx, Hps.
    + rewrite Hv. by apply IH.
Qed.

Lemma sound_ret {A} n (P : nat -> A -> Prop) x :
  (forall n', n <= n' -> P n' x) -> sound n P (ret x).
Proof.
  intros HP h Hn Hwf. cbn [ret fst snd]. repeat split; [done | lia |].
  intros y [= <-]. auto.
Qed.

Lemma sound_throw {A} n (P : nat -> A -> Prop) e : sound n P (throw e).
Proof. intros h Hn Hwf. cbn [throw fst snd]. by repeat split. Qed.

Lemma sound_bind {A B} n (P : nat -> A -> Prop) (Q : nat -> B -> Prop)
    (m : M A) (k : A -> M B) :
  sound n P m ->
  (forall n' x, n <= n' -> P n' x -> sound n' Q (k x)) ->
  sound n Q (bind m k).
Proof.
  intros Hm Hk h Hn Hwf. destruct (Hm h Hn Hwf) as (Hwf1 & Hlen1 & HP).
  unfold bind. destruct (m h) as [[x | e] h1]; cbn [fst snd] in *;
    [| by repeat split].
  destruct (Hk (length h1) x ltac:(lia) (HP x eq_refl) h1 ltac:(lia) Hwf1)
    as (Hwf2 & Hlen2 & HQ).
  split; [done |]. split; [lia | done].
Qed.

Lemma sound_get n v k :
  wf_val n v = true -> sound n (fun n' x => wf_val n' x = true) (get v k).
Proof.
  intros Hv h Hn Hwf. unfold get. cbn [fst snd]. repeat split; [done | lia |].
  intros x Hx. by eapply wf_GetV.
Qed.

Lemma sound_alloc n o :
  wf_obj n o = true -> sound n (fun n' x => wf_val n' x = true) (alloc o).
Proof.
  intros Ho h Hn Hwf. unfold alloc. cbn [fst snd]. rewrite length_app.
  cbn [length]. split; [| split; [lia |]].
  - apply wf_heap_alloc; [done |]. eapply wf_obj_mono; [| done]. lia.
  - intros x [= <-]. unfold wf_val. apply Nat.ltb_lt. lia.
Qed.

Lemma sound_put n v k x :
  wf_val n x = true -> sound n (fun _ _ => True) (put v k x).
Proof.
  intros Hx h Hn Hwf. unfold put.
  destruct v as [| | | | | l]; cbn [fst snd]; try (by repeat split).
  destruct (h !! l) as [[ps | es ps] |] eqn:El; cbn [fst snd];
    try (by repeat split);
    rewrite length_insert; (split; [| by split]);
    apply wf_heap_insert; try done;
    pose proof (wf_lookup _ _ _ Hwf El) as Ho; cbn [wf_obj] in Ho |- *.
  - apply wf_set_prop; [| done]. eapply wf_val_mono; [| done]. lia.
  - apply andb_prop in Ho as [Hes Hps]. rewrite Hes. cbn.
    apply wf_set_prop; [| done]. eapply wf_val_mono; [| done]. lia.
Qed.

Lemma sound_array_push n l x :
  wf_val n x = true -> sound n (fun _ _ => True) (array_push l x).
Proof.
  intros Hx h Hn Hwf. unfold array_push.
  destruct (h !! l) as [[ps | es ps] |] eqn:El; cbn [fst snd];
    try (by repeat split).
  rewrite length_insert. split; [| by split].
  apply wf_heap_insert; [done |].
  pose proof (wf_lookup _ _ _ Hwf El) as Ho. cbn [wf_obj] in Ho |- *.
  apply andb_prop in Ho as [Hes Hps]. rewrite Hps, forallb_app, Hes.
  cbn [forallb andb]. rewrite !andb_true_r. eapply wf_val_mono; [| done]. lia.
Qed.

Lemma sound_call_push n base arg :
  sound n (fun n' x => wf_val n' x = true) arg ->
  sound n (fun _ _ => True) (call_push base arg).
Proof.
  intros Harg. unfold call_push.
  apply (sound_bind n (fun _ _ => True)).
  { intros h Hn Hwf. cbn [fst snd]. by repeat split. }
  intros n1 f Hn1 _.
  apply (sound_bind n1 (fun n' x => wf_val n' x = true)).
  { intros h Hn Hwf. apply Harg; [lia | done]. }
  intros n2 x Hn2 Hx. destruct f as [l |].
  - by apply sound_array_push.
  - apply sound_throw.
Qed.

Lemma sound_forEach {A} n (xs : list A) (f : A -> M unit) :
  (forall x n', n <= n' -> sound n' (fun _ _ => True) (f x)) ->
  sound n (fun _ _ => True) (forEach xs f).
Proof.
  intros Hf. revert n Hf. induction xs as [| x xs IH]; intros n Hf; cbn [forEach].
  - by apply sound_ret.
  - apply (sound_bind n (fun _ _ => True)); [by apply Hf |].
    intros n' _ Hn' _. apply IH. intros y n'' Hn''. apply Hf. lia.
Qed.

Lemma sound_literal n kind k x :
  sound n (fun n' x => wf_val n' x = true)
    (let! o := new_object [(k, VString x)] in new_object [(kind, o)]).
Proof.
  apply (sound_bind n (fun n' x => wf_val n' x = true)).
  { by apply sound_alloc. }
  intros n' o Hn' Ho. apply sound_alloc. cbn [wf_obj wf_props forallb snd].
  by rewrite Ho.
Qed.

Lemma sound_push_clause n f this arg :
  wf_val n (queryObject this) = true ->
  (forall n', n <= n' -> sound n' (fun n' x => wf_val n' x = true) arg) ->
  sound n (fun _ b => b = this) (push_clause f this arg).
Proof.
  intros Hthis Harg.
  assert (forall n' s, n <= n' ->
            sound n' (fun _ b => b = this) (call_push s arg ;;; ret this)) as Hpush.
  { intros n' s Hn'. apply (sound_bind n' (fun _ _ => True)).
    - apply sound_call_push. by apply Harg.
    - intros. by apply sound_ret. }
  destruct f; unfold push_clause; try (by apply sound_ret).
  - apply (sound_bind n (fun n' x => wf_val n' x = true)); [by apply sound_get |].
    intros n1 q Hn1 Hq.
    apply (sound_bind n1 (fun n' x => wf_val n' x = true)); [by apply sound_get |].
    intros n2 b Hn2 Hb.
    apply (sound_bind n2 (fun n' x => wf_val n' x = true)); [by apply sound_get |].
    intros n3 s Hn3 Hs. apply Hpush. lia.
  - apply (sound_bind n (fun n' x => wf_val n' x = true)); [by apply sound_get |].
    intros n1 q Hn1 Hq.
    apply (sound_bind n1 (fun n' x => wf_val n' x = true)); [by apply sound_get |].
    intros n2 b Hn2 Hb.
    apply (sound_bind n2 (fun n' x => wf_val n' x = true)); [by apply sound_get |].
    intros n3 s Hn3 Hs. apply Hpush. lia.
  - apply (sound_bind n (fun n' x => wf_val n' x = true)); [by apply sound_get |].
    intros n1 s Hn1 Hs. apply Hpush. lia.
Qed.

Lemma invoke_sound n c this :
  wf_val n (queryObject this) = true ->
  sound n (fun _ b => b = this) (invoke c this).
Proof.
  intros Hthis. destruct (clause_of c) as [[kind k x | ts] |] eqn:Hc.
  - rewrite (invoke_leaf _ _ _ _ _ Hc). apply sound_push_clause; [done |].
    intros n' Hn'. apply sound_literal.
  - destruct c; try done. cbn [invoke]. unfold mustShouldMatch.
    apply (sound_bind n (fun n' x => wf_val n' x = true)); [by apply sound_alloc |].
    intros n1 arr Hn1 Harr.
    apply (sound_bind n1 (fun n' x => wf_val n' x = true)).
    { apply sound_alloc. cbn [wf_obj wf_props forallb snd]. by rewrite Harr. }
    intros n2 inner Hn2 Hinner.
    apply (sound_bind n2 (fun n' x => wf_val n' x = true)).
    { apply sound_alloc. cbn [wf_obj wf_props forallb snd]. by rewrite Hinner. }
    intros n3 shouldQuery Hn3 Hsq.
    apply (sound_bind n3 (fun _ _ => True)).
    { apply sound_forEach. intros t n4 Hn4.
      assert (wf_val n4 shouldQuery = true) as Hsq4
        by (eapply wf_val_mono; [| exact Hsq]; lia).
      apply (sound_bind n4 (fun n' x => wf_val n' x = true)); [by apply sound_get |].
      intros n5 b Hn5 Hb.
      apply (sound_bind n5 (fun n' x => wf_val n' x = true)); [by apply sound_get |].
      intros n6 s Hn6 Hs.
      apply (sound_bind n6 (fun _ _ => True)).
      - apply sound_call_push. apply sound_literal.
      - intros. by apply sound_ret. }
    intros n4 _ Hn4 _.
    apply (sound_push_clause n4 Must this (ret shouldQuery)).
    + eapply wf_val_mono; [| exact Hthis]. lia.
    + intros n5 Hn5. apply sound_ret. intros n6 Hn6.
      eapply wf_val_mono; [| exact Hsq]. lia.
  - destruct c; try done; cbn [invoke].
    + unfold minimumShouldMatch.
      apply (sound_bind n (fun n' x => wf_val n' x = true)); [by apply sound_get |].
      intros n1 q Hn1 Hq.
      apply (sound_bind n1 (fun n' x => wf_val n' x = true)); [by apply sound_get |].
      intros n2 b Hn2 Hb.
      apply (sound_bind n2 (fun _ _ => True)); [by apply sound_put |].
      intros. by apply sound_ret.
    + unfold size.
      apply (sound_bind n (fun _ _ => True)); [by apply sound_put |].
      intros. by apply sound_ret.
    + unfold from.
      apply (sound_bind n (fun _ _ => True)); [by apply sound_put |].
      intros. by apply sound_ret.
Qed.

(** A call leaves every object of its kind, array or not. *)
Lemma invoke_kind c this (h : list obj) l o :
  wf_heap h = true -> wf_val (length h) (queryObject this) = true ->
  h !! l = Some o ->
  exists o', snd (invoke c this h) !! l = Some o' /\ is_array o' = is_array o.
Proof.
  intros Hwf Hv Hl.
  destruct (receiver h (queryObject this) (designated c)) as [a |] eqn:Hrec.
  - destruct (invoke_ok c this h a Hrec) as (h' & oa & -> & Ha & Hframe & Heff).
    cbn [snd]. destruct (decide (l = a)) as [-> | Hla];
      [| exists o; split; [by apply Hframe | done]].
    assert (oa = o) as -> by congruence.
    unfold effect in Heff.
    destruct (clause_of c) as [cl |].
    + destruct Heff as (es & ps & r & -> & Ha' & _). by exists (Arr (es ++ [r]) ps).
    + destruct (setting_of c) as [[k' n] |]; [| done]. subst h'.
      exists (with_prop k' (VNumber n) o).
      rewrite list_lookup_insert_eq by (by eapply lookup_lt_Some).
      split; [done |]. by destruct o.
  - destruct (invoke_fails c this h Hwf Hv Hrec) as (h' & -> & Hkeep).
    cbn [snd]. exists o. split; [apply Hkeep; [lia | done] | done].
Qed.

(** What the mutators need of the document is neither made nor unmade by
    a call. *)
Lemma invoke_receiver c this (h : list obj) f :
  wf_heap h = true -> wf_val (length h) (queryObject this) = true ->
  receiver (snd (invoke c this h)) (queryObject this) f =
  receiver h (queryObject this) f.
Proof.
  intros Hwf Hv. unfold receiver.
  rewrite (invoke_paths c this h (receiver_path f) Hwf Hv) by
    (destruct f; repeat constructor; by destruct c).
  destruct (resolve h (queryObject this) (receiver_path f)) as [s |] eqn:E;
    [| done].
  pose proof (wf_resolve _ _ Hwf _ _ Hv E) as Hs.
  destruct s as [| | | | | l]; try done.
  unfold wf_val in Hs. apply Nat.ltb_lt in Hs.
  destruct (lookup_lt_is_Some_2 h l Hs) as [o Ho].
  destruct (invoke_kind c this h l o Hwf Hv Ho) as (o' & Ho' & Hkind).
  destruct (invoke_props c this h l o "push" Hwf Hv Ho) as (o'' & Ho'' & Hpush);
    [by destruct c |].
  assert (o'' = o') as -> by congruence.
  unfold pushable, writable. rewrite Ho', Ho.
  destruct o as [ps | es ps], o' as [ps' | es' ps']; try done.
  cbn [own_props] in Hpush. by rewrite Hpush.
Qed.

(** A chain runs as long as the document has what each call needs, and
    throws at the first call for which it does not. *)
Lemma chain_runs cs :
  forall this (h : list obj),
    wf_heap h = true -> wf_val (length h) (queryObject this) = true ->
    Forall (fun c => receiver h (queryObject this) (designated c) <> None) cs ->
    exists h',
      chain cs this h = (Normal this, h') /\
      wf_heap h' = true /\ length h <= length h' /\
      forall f, receiver h' (queryObject this) f = receiver h (queryObject this) f.
Proof.
  induction cs as [| c cs IH]; intros this h Hwf Hv Hcs.
  - exists h. by repeat split.
  - apply Forall_cons in Hcs as [Hc Hcs].
    destruct (receiver h (queryObject this) (designated c)) as [a |] eqn:Hrec;
      [| done].
    destruct (invoke_ok c this h a Hrec) as (h1 & o & Hrun & _).
    destruct (invoke_sound (length h) c this Hv h (Nat.le_refl _) Hwf)
      as (Hwf1 & Hlen1 & _).
    pose proof (invoke_receiver c this h) as Hsame.
    rewrite Hrun in Hwf1, Hlen1, Hsame. cbn [snd] in *.
    assert (wf_val (length h1) (queryObject this) = true) as Hv1
      by (eapply wf_val_mono; [| exact Hv]; lia).
    destruct (IH this h1 Hwf1 Hv1) as (h' & Hrun' & Hwf' & Hlen' & Hsame').
    { eapply Forall_impl; [exact Hcs |]. intros c' Hc'. cbn in Hc' |- *.
      by rewrite Hsame. }
    exists h'. cbn [chain]. unfold bind. rewrite Hrun.
    repeat split; try done; [lia |].
    intros f. by rewrite Hsame', Hsame.
Qed.

Lemma chain_throws cs1 c cs2 this (h : list obj) :
  wf_heap h = true -> wf_val (length h) (queryObject this) = true ->
  Forall (fun c' => receiver h (queryObject this) (designated c') <> None) cs1 ->
  receiver h (queryObject this) (designated c) = None ->
  exists h1 h',
    chain cs1 this h = (Normal this, h1) /\
    chain (cs1 ++ c :: cs2) this h = (Throw TypeError, h') /\
    forall l o, h1 !! l = Some o -> h' !! l = Some o.
Proof.
  intros Hwf Hv Hcs1 Hc.
  destruct (chain_runs cs1 this h Hwf Hv Hcs1) as (h1 & Hrun & Hwf1 & Hlen1 & Hsame).
  assert (wf_val (length h1) (queryObject this) = true) as Hv1
    by (eapply wf_val_mono; [| exact Hv]; lia).
  rewrite <- Hsame in Hc.
  destruct (invoke_fails c this h1 Hwf1 Hv1 Hc) as (h' & Hrun' & Hk).
  exists h1, h'. split; [done |]. split.
  - rewrite chain_app. unfold bind at 1. rewrite Hrun. cbn [chain].
    unfold bind. by rewrite Hrun'.
  - intros l o Hl. apply Hk; [lia | done].
Qed.

(** *** A longer list makes a longer text *)









(** *** The scenarios of the specification, run *)

Example new_in_empty_heap :
  constructor VUndefined [] = (Normal builder0, heap0).
Proof. reflexivity. Qed.

Example scenario_ofType_mustMatch :
  field_of Must <$> built [] [CofType "user"; CmustMatch "name" "alice"] =
  Some (Some (TArray [TObject [("term", TObject [("type", TString "user")])];
                      TObject [("match", TObject [("name", TString "alice")])]])).
Proof. reflexivity. Qed.

Example scenario_mustShouldMatch :
  text []
    [CmustShouldMatch [{| key := "a"; value := "1" |};
                       {| key := "b"; value := "2" |}]] =
  Normal (VString (json
    "{'query':{'bool':{'should':[],'must':[{'bool':{'should':[{'match':{'a':'1'}},{'match':{'b':'2'}}]}}]}},'sort':[]}")).
Proof. reflexivity. Qed.

Example scenario_paging_and_sort :
  text [] [Csize (Some 5%Z); Cfrom (Some 10%Z); Csort "date" (Some asc)] =
  Normal (VString (json
    "{'query':{'bool':{'should':[],'must':[]}},'sort':[{'date':{'order':'asc'}}],'size':5,'from':10}")).
Proof. reflexivity. Qed.

Example scenario_defaults :
  text [] [Cfrom None; Csize None; CminimumShouldMatch (-1); Csort "rank" None] =
  Normal (VString (json
    "{'query':{'bool':{'should':[],'must':[],'minimum_should_match':-1}},'sort':[{'rank':{'order':'desc'}}],'from':0,'size':20}")).
Proof. reflexivity. Qed.

(** A supplied document is stored as it is: the empty object prints as
    [{}], takes a [size], and has no list to push to. *)
Example scenario_supplied_empty_object :
  fst ((let! b := constructor (VRef 0) in
        let! b := size b (Some 3%Z) in
        toString b) [Obj []]) = Normal (VString (json "{'size':3}")) /\
  fst ((let! b := constructor (VRef 0) in shouldTerm b "k" "v") [Obj []]) =
  Throw TypeError.
Proof. split; reflexivity. Qed.

(** A document that contains itself cannot be printed. *)
Example scenario_cyclic_document :
  fst ((let! b := constructor (VRef 0) in toString b) [Obj [("self", VRef 0)]]) =
  Throw TypeError.
Proof. reflexivity. Qed.

End Facts.

(** ** Properties of the builder *)
Module Properties.
Import JS QB Doc Shape Run Facts.
Local Open Scope js_scope.

(** C1. For every chain of mutator calls on a builder constructed with the
    default document, the chain runs to the end and the final lengths of
    [query.bool.should] and [query.bool.must] are the number of should-calls
    and the number of must-calls ([must*], [ofType], [mustShouldMatch]) made;
    one more [mustShouldMatch] call makes [must] one longer, whatever the
    length of its [terms]. *)
Theorem list_lengths_count_calls (h0 : list obj) (cs : list call) :
  exists t ss ms,
    built h0 cs = Some t /\
    field_of Should t = Some (TArray ss) /\
    field_of Must t = Some (TArray ms) /\
    length ss = length (calls_for Should cs) /\
    length ms = length (calls_for Must cs) /\
    forall terms, exists t' ms',
      built h0 (cs ++ [CmustShouldMatch terms]) = Some t' /\
      field_of Must t' = Some (TArray ms') /\
      length ms' = S (length ms).
Proof.
  destruct (after_lists cs) as (Hs & Hm & _).
  eexists _, _, _. rewrite built_after, field_should, field_must.
  repeat split; try reflexivity.
  - by rewrite length_map, Hs, clauses_for_length by auto.
  - by rewrite length_map, Hm, clauses_for_length by auto.
  - intros terms. eexists _, _.
    rewrite built_after, field_must, after_snoc. split; [done |].
    split; [done |]. cbn. rewrite !length_map, length_app. cbn. lia.
Qed.

(** C2. On a new builder, after any chain of calls, each of the two clause
    lists holds exactly the clauses of the calls made for it, in call order;
    a call repeated appends its clause a second time.  On any document that
    has the list, a clause-adding call puts its clause after the elements
    already there and leaves those in place. *)
Theorem clauses_in_call_order :
  (forall (h0 : list obj) cs, exists t,
     built h0 cs = Some t /\
     field_of Should t = Some (TArray (map clause_tree (clauses_for Should cs))) /\
     field_of Must t = Some (TArray (map clause_tree (clauses_for Must cs))) /\
     (forall k v, exists t',
        built h0 (cs ++ [CshouldMatch k v; CshouldMatch k v]) = Some t' /\
        field_of Should t' =
          Some (TArray (map clause_tree (clauses_for Should cs)
                        ++ [leaf_tree "match" k v; leaf_tree "match" k v]))) /\
     (forall k v, exists t',
        built h0 (cs ++ [CmustPrefix k v; CmustPrefix k v]) = Some t' /\
        field_of Must t' =
          Some (TArray (map clause_tree (clauses_for Must cs)
                        ++ [leaf_tree "prefix" k v; leaf_tree "prefix" k v])))) /\
  (forall c this (h : list obj) a cl,
     clause_of c = Some cl ->
     receiver h (queryObject this) (designated c) = Some a ->
     exists h' es ps r,
       invoke c this h = (Normal this, h') /\
       h !! a = Some (Arr es ps) /\
       h' !! a = Some (Arr (es ++ [r]) ps) /\
       snapshot h' r = Normal (clause_tree cl)).
Proof.
  split; [| apply invoke_appends].
  intros h0 cs.
  exists (to_tree (after cs)). rewrite built_after, field_should, field_must.
  destruct (after_lists cs) as (Hs & Hm & _). rewrite Hs, Hm.
  repeat split.
  - intros k v. eexists. rewrite built_after, field_should.
    split; [done |]. destruct (after_lists (cs ++ [CshouldMatch k v; CshouldMatch k v]))
      as (-> & _ & _).
    by rewrite clauses_for_app, map_app.
  - intros k v. eexists. rewrite built_after, field_must.
    split; [done |]. destruct (after_lists (cs ++ [CmustPrefix k v; CmustPrefix k v]))
      as (_ & -> & _).
    by rewrite clauses_for_app, map_app.
Qed.

Lemma clauses_in_call_order_witness :
  exists h' es ps r,
    invoke (CmustPrefix "name" "al")
      {| queryObject := VRef 5 |}
      (snd (chain [CofType "user"] builder0 heap0)) =
      (Normal {| queryObject := VRef 5 |}, h') /\
    snd (chain [CofType "user"] builder0 heap0) !! 1 = Some (Arr es ps) /\
    h' !! 1 = Some (Arr (es ++ [r]) ps) /\
    snapshot h' r = Normal (clause_tree (Leaf "prefix" "name" "al")).
Proof.
  apply (proj2 clauses_in_call_order (CmustPrefix "name" "al")
           {| queryObject := VRef 5 |}
           (snd (chain [CofType "user"] builder0 heap0)) 1
           (Leaf "prefix" "name" "al"));
    reflexivity.
Defined.

(** C3. For every key [k] and value [v], on any document that has the list,
    [shouldWildcard(k, v)] and [mustWildcard(k, v)] append one clause
    [{wildcard: {k: "*" + v + "*"}}]; the wrapping is unconditional, so the
    value ["*x*"] is stored as ["**x**"]. *)
Theorem wildcard_value_is_wrapped :
  (forall this (h : list obj) a k v,
     receiver h (queryObject this) Should = Some a ->
     exists h' es ps r,
       shouldWildcard this k v h = (Normal this, h') /\
       h !! a = Some (Arr es ps) /\
       h' !! a = Some (Arr (es ++ [r]) ps) /\
       snapshot h' r =
         Normal (TObject [("wildcard", TObject [(k, TString ("*" +:+ v +:+ "*"))])])) /\
  (forall this (h : list obj) a k v,
     receiver h (queryObject this) Must = Some a ->
     exists h' es ps r,
       mustWildcard this k v h = (Normal this, h') /\
       h !! a = Some (Arr es ps) /\
       h' !! a = Some (Arr (es ++ [r]) ps) /\
       snapshot h' r =
         Normal (TObject [("wildcard", TObject [(k, TString ("*" +:+ v +:+ "*"))])])) /\
  (forall h0 : list obj, exists t,
     built h0 [CshouldWildcard "a" "*x*"; CmustWildcard "a" "*x*"] = Some t /\
     field_of Should t =
       Some (TArray [TObject [("wildcard", TObject [("a", TString "**x**")])]]) /\
     field_of Must t =
       Some (TArray [TObject [("wildcard", TObject [("a", TString "**x**")])]])).
Proof.
  split; [| split].
  - intros this h a k v Hrec.
    exact (invoke_appends (CshouldWildcard k v) this h a _ eq_refl Hrec).
  - intros this h a k v Hrec.
    exact (invoke_appends (CmustWildcard k v) this h a _ eq_refl Hrec).
  - intros h0. eexists. rewrite built_after. by repeat split.
Qed.

Lemma wildcard_value_is_wrapped_witness :
  (exists h' es ps r,
     shouldWildcard builder0 "a" "x" heap0 = (Normal builder0, h') /\
     heap0 !! 0 = Some (Arr es ps) /\
     h' !! 0 = Some (Arr (es ++ [r]) ps) /\
     snapshot h' r =
       Normal (TObject [("wildcard", TObject [("a", TString ("*" +:+ "x" +:+ "*"))])])) /\
  (exists h' es ps r,
     mustWildcard builder0 "a" "x" heap0 = (Normal builder0, h') /\
     heap0 !! 1 = Some (Arr es ps) /\
     h' !! 1 = Some (Arr (es ++ [r]) ps) /\
     snapshot h' r =
       Normal (TObject [("wildcard", TObject [("a", TString ("*" +:+ "x" +:+ "*"))])])).
Proof.
  split.
  - apply (proj1 wildcard_value_is_wrapped builder0 heap0 0 "a" "x"). reflexivity.
  - apply (proj1 (proj2 wildcard_value_is_wrapped) builder0 heap0 1 "a" "x").
    reflexivity.
Defined.

(** C4. [minimumShouldMatch], [size] and [from] overwrite: on any document,
    calling one of them with [x] and then with [y] leaves exactly the heap
    that the call with [y] alone leaves, for any two numbers, and where the
    document has the object to write to, the property then reads [y]; on a
    new builder, after any chain, the field holds [y]. *)
Theorem setters_overwrite :
  (forall this (h : list obj) x y,
     chain [CminimumShouldMatch x; CminimumShouldMatch y] this h =
     chain [CminimumShouldMatch y] this h) /\
  (forall this (h : list obj) x y,
     chain [Csize x; Csize y] this h = chain [Csize y] this h) /\
  (forall this (h : list obj) x y,
     chain [Cfrom x; Cfrom y] this h = chain [Cfrom y] this h) /\
  (forall this (h : list obj) x y a,
     receiver h (queryObject this) MinimumShouldMatch = Some a ->
     exists h',
       chain [CminimumShouldMatch x; CminimumShouldMatch y] this h =
         (Normal this, h') /\
       GetV h' (VRef a) "minimum_should_match" = Normal (VNumber y)) /\
  (forall this (h : list obj) x y a,
     receiver h (queryObject this) Size = Some a ->
     exists h',
       chain [Csize x; Csize (Some y)] this h = (Normal this, h') /\
       GetV h' (VRef a) "size" = Normal (VNumber y)) /\
  (forall this (h : list obj) x y a,
     receiver h (queryObject this) From = Some a ->
     exists h',
       chain [Cfrom x; Cfrom (Some y)] this h = (Normal this, h') /\
       GetV h' (VRef a) "from" = Normal (VNumber y)) /\
  (forall (h0 : list obj) cs x y, exists t,
     built h0 (cs ++ [CminimumShouldMatch x; CminimumShouldMatch y]) = Some t /\
     field_of MinimumShouldMatch t = Some (TNumber y)) /\
  (forall (h0 : list obj) cs x y, exists t,
     built h0 (cs ++ [Csize x; Csize (Some y)]) = Some t /\
     field_of Size t = Some (TNumber y)) /\
  (forall (h0 : list obj) cs x y, exists t,
     built h0 (cs ++ [Cfrom x; Cfrom (Some y)]) = Some t /\
     field_of From t = Some (TNumber y)).
Proof.
  repeat split.
  - intros. by eapply setter_twice.
  - intros. by eapply setter_twice.
  - intros. by eapply setter_twice.
  - intros this h x y a.
    by apply (setter_twice (CminimumShouldMatch x) (CminimumShouldMatch y)
                "minimum_should_match" x y).
  - intros this h x y a.
    by apply (setter_twice (Csize x) (Csize (Some y)) "size" (default 20%Z x) y).
  - intros this h x y a.
    by apply (setter_twice (Cfrom x) (Cfrom (Some y)) "from" (default 0%Z x) y).
  - intros h0 cs x y. eexists. rewrite built_after. split; [done |].
    rewrite field_minimum. unfold after. by rewrite fold_left_app.
  - intros h0 cs x y. eexists. rewrite built_after. split; [done |].
    rewrite field_size. unfold after. rewrite fold_left_app. cbn.
    by rewrite get_set_key_eq.
  - intros h0 cs x y. eexists. rewrite built_after. split; [done |].
    rewrite field_from. unfold after. rewrite fold_left_app. cbn.
    by rewrite get_set_key_eq.
Qed.

Lemma setters_overwrite_witness :
  (exists h',
     chain [CminimumShouldMatch 2; CminimumShouldMatch (-1)] builder0 heap0 =
       (Normal builder0, h') /\
     GetV h' (VRef 2) "minimum_should_match" = Normal (VNumber (-1))) /\
  (exists h',
     chain [Csize None; Csize (Some 0%Z)] builder0 heap0 = (Normal builder0, h') /\
     GetV h' (VRef 5) "size" = Normal (VNumber 0)) /\
  (exists h',
     chain [Cfrom (Some 10%Z); Cfrom (Some (-7)%Z)] builder0 heap0 =
       (Normal builder0, h') /\
     GetV h' (VRef 5) "from" = Normal (VNumber (-7))).
Proof.
  destruct setters_overwrite as (_ & _ & _ & Hm & Hs & Hf & _).
  split; [| split].
  - exact (Hm builder0 heap0 2%Z (-1)%Z 2 eq_refl).
  - exact (Hs builder0 heap0 None 0%Z 5 eq_refl).
  - exact (Hf builder0 heap0 (Some 10%Z) (-7)%Z 5 eq_refl).
Defined.

(** C5. On any document that has the sort list, [sort(attribute)] appends
    [{attribute: {order: "desc"}}] and [sort(attribute, "asc")] appends
    [{attribute: {order: "asc"}}]; every call appends, so two calls leave two
    entries in call order, for two attributes or for one. *)
Theorem sort_appends_entry :
  (forall this (h : list obj) a attribute direction,
     receiver h (queryObject this) Sort = Some a ->
     exists h' es ps r,
       sort this attribute direction h = (Normal this, h') /\
       h !! a = Some (Arr es ps) /\
       h' !! a = Some (Arr (es ++ [r]) ps) /\
       snapshot h' r =
         Normal (TObject
                   [(attribute,
                     TObject [("order",
                               TString match direction with
                                       | None | Some desc => "desc"
                                       | Some asc => "asc"
                                       end)])])) /\
  (forall (h0 : list obj) cs a1 d1 a2 d2, exists t0 ss t,
     built h0 cs = Some t0 /\
     field_of Sort t0 = Some (TArray ss) /\
     built h0 (cs ++ [Csort a1 (Some d1); Csort a2 (Some d2)]) = Some t /\
     field_of Sort t = Some (TArray (ss ++ [sort_entry a1 d1; sort_entry a2 d2]))).
Proof.
  split.
  - intros this h a attribute direction Hrec.
    destruct (invoke_appends (Csort attribute direction) this h a _ eq_refl Hrec)
      as (h' & es & ps & r & Hrun & Ha & Ha' & Hsnap).
    exists h', es, ps, r. repeat split; try done.
    rewrite Hsnap. by destruct direction as [[|] |].
  - intros h0 cs a1 d1 a2 d2. eexists _, _, _. rewrite !built_after, !field_sort.
    repeat split. unfold after. rewrite fold_left_app. cbn.
    by rewrite <- app_assoc, map_app.
Qed.

Lemma sort_appends_entry_witness :
  exists h' es ps r,
    sort builder0 "rank" None heap0 = (Normal builder0, h') /\
    heap0 !! 4 = Some (Arr es ps) /\
    h' !! 4 = Some (Arr (es ++ [r]) ps) /\
    snapshot h' r = Normal (TObject [("rank", TObject [("order", TString "desc")])]).
Proof.
  apply (proj1 sort_appends_entry builder0 heap0 4 "rank" None). reflexivity.
Defined.

(** C6. On any document that has the must list, [mustShouldMatch(terms)]
    appends exactly one element to it, [{bool: {should: [...]}}] with one
    [{match: {key: value}}] per term in the order given; for no terms the
    nested list is empty. *)
Theorem mustShouldMatch_appends_one_nested_clause :
  forall this (h : list obj) a,
    receiver h (queryObject this) Must = Some a ->
    (forall terms, exists h' es ps r,
       mustShouldMatch this terms h = (Normal this, h') /\
       h !! a = Some (Arr es ps) /\
       h' !! a = Some (Arr (es ++ [r]) ps) /\
       snapshot h' r =
         Normal (TObject
                   [("bool",
                     TObject
                       [("should",
                         TArray (map (fun t =>
                                        TObject [("match",
                                                  TObject [(key t, TString (value t))])])
                                     terms))])])) /\
    (exists h' es ps r,
       mustShouldMatch this [] h = (Normal this, h') /\
       h !! a = Some (Arr es ps) /\
       h' !! a = Some (Arr (es ++ [r]) ps) /\
       snapshot h' r = Normal (TObject [("bool", TObject [("should", TArray [])])])).
Proof.
  intros this h a Hrec. split.
  - intros terms.
    exact (invoke_appends (CmustShouldMatch terms) this h a _ eq_refl Hrec).
  - exact (invoke_appends (CmustShouldMatch []) this h a _ eq_refl Hrec).
Qed.

Lemma mustShouldMatch_appends_one_nested_clause_witness :
  exists h' es ps r,
    mustShouldMatch builder0
      [{| key := "a"; value := "1" |}; {| key := "b"; value := "2" |}] heap0 =
      (Normal builder0, h') /\
    heap0 !! 1 = Some (Arr es ps) /\
    h' !! 1 = Some (Arr (es ++ [r]) ps) /\
    snapshot h' r =
      Normal (TObject
                [("bool",
                  TObject
                    [("should",
                      TArray [TObject [("match", TObject [("a", TString "1")])];
                              TObject [("match", TObject [("b", TString "2")])]])])]).
Proof.
  apply (proj1 (mustShouldMatch_appends_one_nested_clause builder0 heap0 1 eq_refl)
           [{| key := "a"; value := "1" |}; {| key := "b"; value := "2" |}]).
Defined.



(** C8. [build()] returns the reference the builder holds, cannot fail and
    changes nothing; taking it before a mutator call gives the same reference
    and the same heap as taking it after, so the object returned earlier shows
    the document with the later call's change. *)
Theorem build_returns_the_document_itself :
  (forall this (h : list obj), build this h = (Normal (queryObject this), h)) /\
  (forall c this (h : list obj),
     (let! d := build this in let! _ := invoke c this in ret d) h =
     (let! this' := invoke c this in build this') h) /\
  (forall (h0 : list obj) cs c, exists t,
     seen_through_build h0 cs c = Some t /\ built h0 (cs ++ [c]) = Some t).
Proof.
  split; [done |]. split.
  - intros c this h. unfold bind, build, ret.
    destruct (invoke_returns c this h) as (h' & [-> | (e & ->)]); done.
  - intros h0 cs c. exists (to_tree (after (cs ++ [c]))).
    by rewrite seen_through_build_after, built_after.
Qed.

(** C9. The constructor never throws and does not look into the document it
    is given: a truthy argument is kept as it is and the heap is not touched.
    A mutator throws TypeError exactly when the document lacks the object or
    list it writes to, and then changes no object; otherwise it succeeds.  So
    a chain runs until the first call that needs what the document lacks,
    and throws there. *)
Theorem structure_is_checked_by_use_only :
  (forall query (h : list obj), exists this h',
     constructor query h = (Normal this, h') /\
     (ToBoolean query = true -> queryObject this = query /\ h' = h)) /\
  (forall c this (h : list obj),
     wf_heap h = true -> wf_val (length h) (queryObject this) = true ->
     receiver h (queryObject this) (designated c) = None ->
     exists h',
       invoke c this h = (Throw TypeError, h') /\
       forall l o, h !! l = Some o -> h' !! l = Some o) /\
  (forall c this (h : list obj) a,
     receiver h (queryObject this) (designated c) = Some a ->
     exists h', invoke c this h = (Normal this, h')) /\
  (forall cs1 c cs2 this (h : list obj),
     wf_heap h = true -> wf_val (length h) (queryObject this) = true ->
     Forall (fun c' => receiver h (queryObject this) (designated c') <> None) cs1 ->
     receiver h (queryObject this) (designated c) = None ->
     exists h1 h',
       chain cs1 this h = (Normal this, h1) /\
       chain (cs1 ++ c :: cs2) this h = (Throw TypeError, h') /\
       forall l o, h1 !! l = Some o -> h' !! l = Some o).
Proof.
  split; [| split; [| split]].
  - intros query h. unfold constructor.
    destruct (ToBoolean query) eqn:E.
    + eexists _, _. split; [reflexivity |]. by intros _.
    + eexists _, _. split; [reflexivity |]. intros [=].
  - intros c this h Hwf Hv Hrec.
    destruct (invoke_fails c this h Hwf Hv Hrec) as (h' & Hrun & Hk).
    exists h'. split; [done |]. intros l o Hl. apply Hk; [lia | done].
  - intros c this h a Hrec.
    destruct (invoke_ok c this h a Hrec) as (h' & o & Hrun & _).
    by exists h'.
  - intros cs1 c cs2 this h. apply chain_throws.
Qed.

Lemma structure_is_checked_by_use_only_witness :
  (exists this h',
     constructor (VRef 0) [Obj []] = (Normal this, h') /\
     queryObject this = VRef 0 /\ h' = [Obj []]) /\
  (exists h',
     invoke (CshouldPrefix "a" "b") {| queryObject := VRef 0 |} [Obj []] =
       (Throw TypeError, h') /\
     forall l o, [Obj []] !! l = Some o -> h' !! l = Some o) /\
  (exists h',
     invoke (Csize None) {| queryObject := VRef 0 |} [Obj []] =
       (Normal {| queryObject := VRef 0 |}, h')) /\
  (exists h1 h',
     chain [CshouldTerm "a" "b"; Csize None] builder_without_sort
       heap_without_sort = (Normal builder_without_sort, h1) /\
     chain ([CshouldTerm "a" "b"; Csize None]
            ++ Csort "rank" None :: [CmustTerm "x" "y"])
       builder_without_sort heap_without_sort = (Throw TypeError, h') /\
     forall l o, h1 !! l = Some o -> h' !! l = Some o).
Proof.
  split; [| split; [| split]].
  - destruct (proj1 structure_is_checked_by_use_only (VRef 0) [Obj []])
      as (this & h' & Hrun & Hkept).
    exists this, h'. split; [exact Hrun |]. exact (Hkept eq_refl).
  - exact (proj1 (proj2 structure_is_checked_by_use_only)
             (CshouldPrefix "a" "b") {| queryObject := VRef 0 |} [Obj []]
             eq_refl eq_refl eq_refl).
  - exact (proj1 (proj2 (proj2 structure_is_checked_by_use_only))
             (Csize None) {| queryObject := VRef 0 |} [Obj []] 0 eq_refl).
  - apply (proj2 (proj2 (proj2 structure_is_checked_by_use_only))
             [CshouldTerm "a" "b"; Csize None] (Csort "rank" None)
             [CmustTerm "x" "y"] builder_without_sort heap_without_sort);
      [reflexivity | reflexivity | | reflexivity].
    repeat constructor; discriminate.
Defined.

(** C10. Every mutator changes its own field and nothing else.  On a new
    builder, after any chain, a further call leaves every field other than
    its own as it was, and a list mutator makes its list longer by exactly
    the one clause of the call.  On any document, a call changes no object
    other than the one it writes to, it makes the list it pushes to longer by
    exactly one, and every property other than the one it sets is found
    where it was, so [size], [from] and [minimum_should_match] are altered
    by their own setters only. *)
Theorem mutators_change_their_field_only :
  (forall (h0 : list obj) cs c f,
     field_eqb f (designated c) = false ->
     exists t t',
       built h0 cs = Some t /\ built h0 (cs ++ [c]) = Some t' /\
       field_of f t' = field_of f t) /\
  (forall (h0 : list obj) cs c cl,
     clause_of c = Some cl ->
     exists t t' xs,
       built h0 cs = Some t /\ built h0 (cs ++ [c]) = Some t' /\
       field_of (designated c) t = Some (TArray xs) /\
       field_of (designated c) t' = Some (TArray (xs ++ [clause_tree cl]))) /\
  (forall c this (h : list obj) l o,
     wf_heap h = true -> wf_val (length h) (queryObject this) = true ->
     h !! l = Some o ->
     receiver h (queryObject this) (designated c) <> Some l ->
     snd (invoke c this h) !! l = Some o) /\
  (forall c this (h : list obj) a cl,
     clause_of c = Some cl ->
     receiver h (queryObject this) (designated c) = Some a ->
     exists h' es ps r,
       invoke c this h = (Normal this, h') /\
       h !! a = Some (Arr es ps) /\ h' !! a = Some (Arr (es ++ [r]) ps)) /\
  (forall c this (h : list obj) path,
     wf_heap h = true -> wf_val (length h) (queryObject this) = true ->
     Forall (fun k => written_key c <> Some k) path ->
     resolve (snd (invoke c this h)) (queryObject this) path =
     resolve h (queryObject this) path).
Proof.
  split; [| split; [| split; [| split]]].
  - intros h0 cs c f Hf. eexists _, _. rewrite !built_after.
    split; [done |]. split; [done |]. rewrite after_snoc. by apply field_frame.
  - intros h0 cs c cl Hc. destruct (field_grows (after cs) c cl Hc) as (xs & H1 & H2).
    eexists _, _, xs. rewrite !built_after, after_snoc. by repeat split.
  - intros c this h l o. apply invoke_frame.
  - intros c this h a cl Hc Hrec.
    destruct (invoke_appends c this h a cl Hc Hrec)
      as (h' & es & ps & r & Hrun & Ha & Ha' & _).
    by exists h', es, ps, r.
  - intros c this h path Hwf Hv Hpath. by apply invoke_paths.
Qed.

Lemma mutators_change_their_field_only_witness :
  (exists t t',
     built [] [Csize (Some 5%Z)] = Some t /\
     built [] ([Csize (Some 5%Z)] ++ [CshouldTerm "a" "b"]) = Some t' /\
     field_of Size t' = field_of Size t) /\
  (exists t t' xs,
     built [] [] = Some t /\ built [] ([] ++ [CshouldTerm "a" "b"]) = Some t' /\
     field_of Should t = Some (TArray xs) /\
     field_of Should t' = Some (TArray (xs ++ [leaf_tree "term" "a" "b"]))) /\
  snd (invoke (CshouldTerm "a" "b") builder0 heap0) !! 1 = Some (Arr [] []) /\
  (exists h' es ps r,
     invoke (CshouldTerm "a" "b") builder0 heap0 = (Normal builder0, h') /\
     heap0 !! 0 = Some (Arr es ps) /\ h' !! 0 = Some (Arr (es ++ [r]) ps)) /\
  resolve (snd (invoke (CshouldTerm "a" "b") builder0 heap0))
    (queryObject builder0) ["query"; "bool"; "must"] =
  resolve heap0 (queryObject builder0) ["query"; "bool"; "must"].
Proof.
  destruct mutators_change_their_field_only as (A & A' & B1 & B2 & B3).
  split; [| split; [| split; [| split]]].
  - exact (A [] [Csize (Some 5%Z)] (CshouldTerm "a" "b") Size eq_refl).
  - exact (A' [] [] (CshouldTerm "a" "b") _ eq_refl).
  - apply (B1 (CshouldTerm "a" "b") builder0 heap0 1 (Arr [] []));
      [reflexivity | reflexivity | reflexivity | discriminate].
  - exact (B2 (CshouldTerm "a" "b") builder0 heap0 0 _ eq_refl eq_refl).
  - apply (B3 (CshouldTerm "a" "b") builder0 heap0);
      [reflexivity | reflexivity | repeat constructor; discriminate].
Defined.

End Properties.

(** * Further properties of the class *)
Module Further.
Import JS QB Doc Shape Rep Run Laws Facts.
Local Open Scope js_scope.

(** ** What a chain leaves in each field *)

Lemma sort_entries_clauses cs :
  map clause_tree (clauses_for Sort cs) = sort_entries cs.
Proof.
  unfold clauses_for, calls_for, sort_entries.
  induction cs as [| c cs IH]; [done |].
  destruct c; cbn; try exact IH.
  by rewrite <- IH.
Qed.

Lemma sort_entries_length cs :
  length (sort_entries cs) = length (calls_for Sort cs).
Proof.
  unfold calls_for, sort_entries.
  induction cs as [| c cs IH]; [done |].
  destruct c; cbn; try exact IH.
  by rewrite IH.
Qed.

Lemma last_setting_snoc f cs c :
  last_setting f (cs ++ [c]) =
  if field_eqb (designated c) f then
    match setting_of c with
    | Some p => Some (snd p)
    | None => last_setting f cs
    end
  else last_setting f cs.
Proof.
  unfold last_setting. rewrite calls_for_app, omap_app.
  unfold calls_for at 2. cbn [List.filter].
  destruct (field_eqb (designated c) f); cbn.
  - destruct (setting_of c); cbn.
    + by rewrite last_snoc.
    + by rewrite app_nil_r.
  - by rewrite app_nil_r.
Qed.

Lemma after_numbers cs :
  d_minimum_should_match (after cs) = last_setting MinimumShouldMatch cs /\
  get_key "size" (d_paging (after cs)) = last_setting Size cs /\
  get_key "from" (d_paging (after cs)) = last_setting From cs.
Proof.
  induction cs as [| c cs IH] using rev_ind; [done |].
  destruct IH as (IH1 & IH2 & IH3).
  rewrite after_snoc, !last_setting_snoc.
  destruct c; cbn; rewrite ?get_set_key_eq, ?get_set_key_ne by done; done.
Qed.

Lemma field_of_after f cs :
  field_of f (to_tree (after cs)) = field_value f (calls_for f cs).
Proof.
  destruct (after_lists cs) as (H1 & H2 & H3).
  destruct (after_numbers cs) as (N1 & N2 & N3).
  unfold field_value.
  destruct f; cbn [is_list].
  - by rewrite field_should, H1.
  - by rewrite field_must, H2.
  - by rewrite field_minimum, N1.
  - by rewrite field_sort, H3.
  - by rewrite field_size, N2.
  - by rewrite field_from, N3.
Qed.

Lemma calls_for_none f cs :
  Forall (fun c => field_eqb (designated c) f = false) cs -> calls_for f cs = [].
Proof.
  unfold calls_for. induction 1 as [| c cs Hc _ IH]; [done |].
  cbn. by rewrite Hc.
Qed.

Lemma setting_not_list c p : setting_of c = Some p -> is_list (designated c) = false.
Proof. by destruct c. Qed.

Lemma field_eqb_refl f : field_eqb f f = true.
Proof. by destruct f. Qed.

(** X1. On a new builder, after any chain of calls, the [sort] list holds
    one entry [{attribute: {order: direction}}] per [sort] call of the chain,
    in call order and with [desc] where the direction was omitted; its length
    is the number of [sort] calls. *)
Theorem sort_list_is_the_sort_calls (h0 : list obj) (cs : list call) :
  exists t ss,
    built h0 cs = Some t /\
    field_of Sort t = Some (TArray ss) /\
    ss = sort_entries cs /\
    length ss = length (calls_for Sort cs).
Proof.
  exists (to_tree (after cs)), (sort_entries cs).
  split; [apply built_after |].
  split; [| split; [done | apply sort_entries_length]].
  destruct (after_lists cs) as (_ & _ & H3).
  by rewrite field_sort, H3, sort_entries_clauses.
Qed.

(** X2. On a new builder, after any chain of calls, each of
    [minimum_should_match], [size] and [from] holds the argument of the last
    call of its setter in the chain, however many calls for other fields
    came after it, and is absent from the document when the chain has no
    call of its setter. *)
Theorem numbers_hold_the_last_setting :
  (forall (h0 : list obj) cs, exists t,
     built h0 cs = Some t /\
     field_of MinimumShouldMatch t =
       TNumber <$> last_setting MinimumShouldMatch cs /\
     field_of Size t = TNumber <$> last_setting Size cs /\
     field_of From t = TNumber <$> last_setting From cs) /\
  (forall (h0 : list obj) cs c k n later,
     setting_of c = Some (k, n) ->
     Forall (fun c' => field_eqb (designated c') (designated c) = false) later ->
     exists t,
       built h0 (cs ++ c :: later) = Some t /\
       field_of (designated c) t = Some (TNumber n)) /\
  (forall (h0 : list obj) cs f,
     is_list f = false -> calls_for f cs = [] ->
     exists t, built h0 cs = Some t /\ field_of f t = None).
Proof.
  split; [| split].
  - intros h0 cs. exists (to_tree (after cs)).
    destruct (after_numbers cs) as (N1 & N2 & N3).
    split; [apply built_after |].
    by rewrite field_minimum, field_size, field_from, N1, N2, N3.
  - intros h0 cs c k n later Hc Hlater.
    exists (to_tree (after (cs ++ c :: later))).
    split; [apply built_after |].
    rewrite field_of_after, calls_for_app.
    change (c :: later) with ([c] ++ later).
    rewrite calls_for_app, (calls_for_none _ later Hlater), app_nil_r.
    unfold calls_for at 2. cbn [List.filter]. rewrite field_eqb_refl.
    unfold field_value. rewrite (setting_not_list c _ Hc), omap_app.
    cbn [omap list_omap]. rewrite Hc. cbn. by rewrite last_snoc.
  - intros h0 cs f Hf Hnone. exists (to_tree (after cs)).
    split; [apply built_after |].
    rewrite field_of_after, Hnone. unfold field_value. by rewrite Hf.
Qed.

Lemma numbers_hold_the_last_setting_witness :
  (exists t,
     built [] ([Csize (Some 5%Z)] ++ Csize None
               :: [CshouldTerm "a" "b"; Cfrom (Some 3%Z)]) = Some t /\
     field_of (designated (Csize None)) t = Some (TNumber 20)) /\
  (exists t,
     built [] [CshouldTerm "a" "b"; Csize (Some 5%Z)] = Some t /\
     field_of From t = None).
Proof.
  destruct numbers_hold_the_last_setting as (_ & B & C).
  split.
  - apply (B [] [Csize (Some 5%Z)] (Csize None) "size" 20%Z
             [CshouldTerm "a" "b"; Cfrom (Some 3%Z)]);
      [reflexivity | repeat constructor].
  - apply (C [] [CshouldTerm "a" "b"; Csize (Some 5%Z)] From);
      reflexivity.
Defined.

(** X3. [size()] and [from()] without an argument are [size(20)] and
    [from(0)]: the same computations on every document, and on a new builder
    the fields then read 20 and 0. *)
Theorem omitted_paging_arguments_take_defaults :
  (forall this, size this None = size this (Some 20%Z)) /\
  (forall this, from this None = from this (Some 0%Z)) /\
  (forall (h0 : list obj) cs, exists t,
     built h0 (cs ++ [Csize None; Cfrom None]) = Some t /\
     field_of Size t = Some (TNumber 20) /\
     field_of From t = Some (TNumber 0)).
Proof.
  split; [done | split; [done |]].
  intros h0 cs. exists (to_tree (after (cs ++ [Csize None; Cfrom None]))).
  split; [apply built_after |].
  destruct (after_numbers (cs ++ [Csize None; Cfrom None])) as (_ & N2 & N3).
  rewrite field_size, field_from, N2, N3.
  change [Csize None; Cfrom None] with ([Csize None] ++ [Cfrom None]).
  by rewrite app_assoc, !last_setting_snoc.
Qed.

(** X4. On a new builder, what a field of the document holds after a chain
    depends on the calls made for that field only: two chains with the same
    calls for a field, in the same order, leave the same value in it,
    whatever else they call and wherever the builders were made. *)
Theorem field_depends_on_its_own_calls (h0 h0' : list obj) cs cs' f :
  calls_for f cs = calls_for f cs' ->
  exists t t',
    built h0 cs = Some t /\ built h0' cs' = Some t' /\
    field_of f t = field_of f t'.
Proof.
  intros Heq. exists (to_tree (after cs)), (to_tree (after cs')).
  split; [apply built_after | split; [apply built_after |]].
  by rewrite !field_of_after, Heq.
Qed.

Lemma field_depends_on_its_own_calls_witness :
  exists t t',
    built [] [Csize None; CmustTerm "a" "b"; Csort "rank" None] = Some t /\
    built [Obj []] [CmustTerm "a" "b"; CshouldTerm "c" "d"] = Some t' /\
    field_of Must t = field_of Must t'.
Proof.
  apply (field_depends_on_its_own_calls [] [Obj []]
           [Csize None; CmustTerm "a" "b"; Csort "rank" None]
           [CmustTerm "a" "b"; CshouldTerm "c" "d"] Must).
  reflexivity.
Defined.

Lemma step_independent d c1 c2 :
  independent c1 c2 = true -> step (step d c1) c2 = step (step d c2) c1.
Proof. destruct c1, c2; (discriminate || reflexivity). Qed.

(** X5. On a new builder, two consecutive calls for different fields can be
    swapped without changing the document, wherever they stand in the chain,
    unless one is [size] and the other [from]: those two are properties of
    one object, and the document lists them in the order they were first
    set. *)
Theorem calls_for_different_fields_commute :
  (forall (h0 : list obj) cs c1 c2 later,
     independent c1 c2 = true ->
     built h0 (cs ++ c1 :: c2 :: later) = built h0 (cs ++ c2 :: c1 :: later)) /\
  (forall (h0 : list obj) x y,
     built h0 [Csize x; Cfrom y] <> built h0 [Cfrom y; Csize x]).
Proof.
  split.
  - intros h0 cs c1 c2 later Hind. rewrite !built_after. do 2 f_equal.
    unfold after. rewrite !fold_left_app. cbn [fold_left].
    by rewrite (step_independent _ _ _ Hind).
  - intros h0 x y. rewrite !built_after. intros Heq.
    apply (f_equal (fun o => match o with
                             | Some (TObject (_ :: _ :: (k, _) :: _)) => k
                             | _ => EmptyString
                             end)) in Heq.
    discriminate Heq.
Qed.

Lemma calls_for_different_fields_commute_witness :
  built [] ([CofType "user"] ++ Csort "rank" None :: CshouldTerm "a" "b"
            :: [Csize None]) =
  built [] ([CofType "user"] ++ CshouldTerm "a" "b" :: Csort "rank" None
            :: [Csize None]).
Proof.
  destruct calls_for_different_fields_commute as (A & _).
  apply (A [] [CofType "user"] (Csort "rank" None) (CshouldTerm "a" "b")
           [Csize None]).
  reflexivity.
Defined.

(** X6. [ofType(type)] is [mustTerm("type", type)]: the same computation on
    every document, so either may stand for the other anywhere in a chain. *)
Theorem ofType_is_mustTerm_of_type :
  (forall this type, ofType this type = mustTerm this "type" type) /\
  (forall cs1 cs2 type this (h : list obj),
     chain (cs1 ++ CofType type :: cs2) this h =
     chain (cs1 ++ CmustTerm "type" type :: cs2) this h).
Proof.
  split; [done |].
  intros cs1 cs2 type this h. by rewrite !chain_app.
Qed.

Lemma clauses_mirror cs :
  Forall (fun c => has_mirror c = true) cs ->
  clauses_for Should (map mirror cs) = clauses_for Must cs /\
  clauses_for Must (map mirror cs) = clauses_for Should cs.
Proof.
  unfold clauses_for, calls_for.
  induction 1 as [| c cs Hc _ [IH1 IH2]]; [done |].
  destruct c; try discriminate Hc; cbn; by rewrite ?IH1, ?IH2.
Qed.

Lemma calls_mirror f cs :
  f <> Should -> f <> Must -> calls_for f (map mirror cs) = calls_for f cs.
Proof.
  intros Hs Hm. unfold calls_for.
  induction cs as [| c cs IH]; [done |].
  destruct c, f; cbn; try done; by rewrite IH.
Qed.

(** X7. The should-methods and the must-methods are mirror images.  On a new
    builder, replacing in a chain without [mustShouldMatch] every should-call
    by the must-call of the same kind and arguments, and every must-call by
    its should-call ([ofType(t)] by [shouldTerm("type", t)]), exchanges the
    two lists and leaves every other field as it was. *)
Theorem must_calls_mirror_should_calls (h0 : list obj) cs :
  Forall (fun c => has_mirror c = true) cs ->
  exists t t',
    built h0 cs = Some t /\ built h0 (map mirror cs) = Some t' /\
    field_of Should t' = field_of Must t /\
    field_of Must t' = field_of Should t /\
    forall f, f <> Should -> f <> Must -> field_of f t' = field_of f t.
Proof.
  intros Hcs. exists (to_tree (after cs)), (to_tree (after (map mirror cs))).
  split; [apply built_after | split; [apply built_after |]].
  destruct (clauses_mirror cs Hcs) as [M1 M2].
  destruct (after_lists cs) as (H1 & H2 & _).
  destruct (after_lists (map mirror cs)) as (H1' & H2' & _).
  split; [| split].
  - by rewrite field_should, field_must, H1', H2, M1.
  - by rewrite field_should, field_must, H1, H2', M2.
  - intros f Hs Hm. by rewrite !field_of_after, calls_mirror.
Qed.

Lemma must_calls_mirror_should_calls_witness :
  exists t t',
    built [] [CshouldPrefix "a" "b"; CofType "user"; Csize None] = Some t /\
    built [] (map mirror [CshouldPrefix "a" "b"; CofType "user"; Csize None])
      = Some t' /\
    field_of Should t' = field_of Must t /\
    field_of Must t' = field_of Should t /\
    forall f, f <> Should -> f <> Must -> field_of f t' = field_of f t.
Proof.
  apply (must_calls_mirror_should_calls []
           [CshouldPrefix "a" "b"; CofType "user"; Csize None]).
  repeat constructor.
Defined.

(** ** The constructor *)

(** X8. A falsy argument ([undefined], [null], [false], [0], the empty
    string) is treated as an omitted one: the constructor makes a new default
    document [{query: {bool: {should: [], must: []}}, sort: []}], which is
    none of the objects that existed before, and leaves those untouched. *)
Theorem falsy_query_gives_a_fresh_default (query : val) (h : list obj) :
  ToBoolean query = false ->
  constructor query h = constructor VUndefined h /\
  exists l h',
    constructor query h = (Normal {| queryObject := VRef l |}, h') /\
    h !! l = None /\
    (forall l' o, h !! l' = Some o -> h' !! l' = Some o) /\
    snapshot h' (VRef l) = Normal default_tree.
Proof.
  intros Hq. split.
  - unfold constructor. by rewrite Hq.
  - destruct (constructor_default h query Hq) as (h' & Hnew & Hrep & Hkeep).
    exists (length h + 5), h'. split; [done |]. split; [| split].
    + apply lookup_ge_None_2. lia.
    + intros l' o Hl. apply Hkeep; [lia | done].
    + by rewrite (snapshot_represents _ _ _ Hrep).
Qed.

Lemma falsy_query_gives_a_fresh_default_witness :
  constructor (VNumber 0) [Obj []] = constructor VUndefined [Obj []] /\
  exists l h',
    constructor (VNumber 0) [Obj []] = (Normal {| queryObject := VRef l |}, h') /\
    [Obj []] !! l = None /\
    (forall l' o, [Obj []] !! l' = Some o -> h' !! l' = Some o) /\
    snapshot h' (VRef l) = Normal default_tree.
Proof.
  apply (falsy_query_gives_a_fresh_default (VNumber 0) [Obj []]).
  reflexivity.
Defined.

(** X9. [new QueryBuilder(b.build())] is a builder on the very document of
    [b], made without touching the heap; so building a document, wrapping it
    in a new builder and going on with [cs2] is the same run as making all
    the calls on the first builder. *)
Theorem build_then_constructor_resumes :
  (forall this (h : list obj),
     ToBoolean (queryObject this) = true ->
     (let! d := build this in constructor d) h = (Normal this, h)) /\
  (forall cs1 cs2 (h0 : list obj),
     resumed cs1 cs2 h0 = newBuilder (cs1 ++ cs2) h0).
Proof.
  split.
  - intros [q] h Hq. cbn in Hq.
    unfold build, bind, ret, constructor. cbn. by rewrite Hq.
  - intros cs1 cs2 h0.
    destruct (newBuilder_represents h0 cs1) as (h & Hrun & _).
    unfold resumed, newBuilder, bind in *.
    destruct (constructor VUndefined h0) as [[b | e] h1]; [| discriminate].
    rewrite chain_app. unfold bind. by rewrite Hrun.
Qed.

Lemma build_then_constructor_resumes_witness :
  (let! d := build builder0 in constructor d) heap0 = (Normal builder0, heap0).
Proof.
  destruct build_then_constructor_resumes as (A & _).
  apply (A builder0 heap0). reflexivity.
Defined.

(** ** Two builders *)

Lemma receiver_represents base d (h : list obj) f :
  represents base d h ->
  exists i, i < 6 /\ receiver h (VRef (base + 5)) f = Some (base + i).
Proof.
  intros [(ss & Hs & _) (ms & Hm & _) Hb Hq (so & Hso & _) Hr].
  assert (GetV h (VRef (base + 5)) "query" = Normal (VRef (base + 3))) as Gq
    by (eapply GetV_ref; [exact Hr | reflexivity]).
  assert (GetV h (VRef (base + 3)) "bool" = Normal (VRef (base + 2))) as Gb
    by (eapply GetV_ref; [exact Hq | reflexivity]).
  assert (GetV h (VRef (base + 2)) "should" = Normal (VRef base)) as Gs
    by (eapply GetV_ref; [exact Hb | reflexivity]).
  assert (GetV h (VRef (base + 2)) "must" = Normal (VRef (base + 1))) as Gm
    by (eapply GetV_ref; [exact Hb | reflexivity]).
  assert (GetV h (VRef (base + 5)) "sort" = Normal (VRef (base + 4))) as Gso
    by (eapply GetV_ref; [exact Hr | reflexivity]).
  unfold receiver, receiver_path.
  destruct f; cbn [is_list];
    repeat first [ rewrite Gq | rewrite Gb | rewrite Gs | rewrite Gm
                 | rewrite Gso | progress cbn [resolve] ];
    unfold pushable, writable.
  - exists 0. rewrite Hs, Nat.add_0_r. split; [lia | done].
  - exists 1. rewrite Hm. split; [lia | done].
  - exists 2. rewrite Hb. split; [lia | done].
  - exists 4. rewrite Hso. split; [lia | done].
  - exists 5. rewrite Hr. split; [lia | done].
  - exists 5. rewrite Hr. split; [lia | done].
Qed.

(** A call on the builder of a default-grown document at [base] touches
    nothing below [base] and nothing above the six objects of the
    document. *)
Lemma invoke_represents_frame base d (h : list obj) this c :
  represents base d h -> queryObject this = VRef (base + 5) ->
  exists h',
    invoke c this h = (Normal this, h') /\ represents base (step d c) h' /\
    forall l o, l < base \/ base + 6 <= l -> h !! l = Some o -> h' !! l = Some o.
Proof.
  intros Hrep Hthis.
  destruct (invoke_represents base d h this c Hrep Hthis) as (h' & Hrun & Hrep').
  destruct (receiver_represents base d h (designated c) Hrep) as (i & Hi & Hrecv).
  rewrite <- Hthis in Hrecv.
  destruct (invoke_ok c this h (base + i) Hrecv) as (h'' & o & Hrun' & _ & Hframe & _).
  exists h'. split; [done |]. split; [done |].
  rewrite Hrun in Hrun'. injection Hrun' as <-.
  intros l o' Hl. apply Hframe. lia.
Qed.

Lemma chain_represents_frame base cs :
  forall d (h : list obj) this,
    represents base d h -> queryObject this = VRef (base + 5) ->
    exists h',
      chain cs this h = (Normal this, h') /\
      represents base (fold_left step cs d) h' /\
      forall l o, l < base \/ base + 6 <= l -> h !! l = Some o -> h' !! l = Some o.
Proof.
  induction cs as [| c cs IH]; intros d h this Hrep Hthis.
  - exists h. split; [done | split; [done | by intros]].
  - destruct (invoke_represents_frame base d h this c Hrep Hthis)
      as (h1 & Hrun & Hrep1 & Hf1).
    destruct (IH (step d c) h1 this Hrep1 Hthis) as (h' & Hrun' & Hrep' & Hf').
    exists h'. split; [| split; [done |]].
    + cbn [chain]. unfold bind. by rewrite Hrun.
    + intros l o Hl Ho. apply Hf'; [done |]. by apply Hf1.
Qed.

Lemma newBuilder_frame (h0 : list obj) cs :
  exists h,
    newBuilder cs h0 = (Normal {| queryObject := VRef (length h0 + 5) |}, h) /\
    represents (length h0) (after cs) h /\
    forall l o, h0 !! l = Some o -> h !! l = Some o.
Proof.
  destruct (constructor_default h0 VUndefined eq_refl) as (h1 & Hnew & Hrep & Hk).
  destruct (chain_represents_frame (length h0) cs empty h1
              {| queryObject := VRef (length h0 + 5) |} Hrep eq_refl)
    as (h & Hrun & Hrep' & Hf).
  exists h. split; [| split; [done |]].
  - unfold newBuilder, bind. by rewrite Hnew.
  - intros l o Hl. apply Hf.
    + left. by apply lookup_lt_Some in Hl.
    + apply Hk; [lia | done].
Qed.

Lemma represents_keeps_above base d (h h' : list obj) :
  keeps base h h' -> represents base d h -> represents base d h'.
Proof.
  intros Hk [(ss & Hs & Hss) (ms & Hm & Hms) Hb Hq (so & Hso & Hsos) Hr].
  assert (keeps (base + 6) h h') as Hk' by (eapply keeps_weaken; [| exact Hk]; lia).
  split; try (apply Hk; [lia | done]).
  - exists ss. split; [apply Hk; [lia | done] | by eapply clauses_at_keeps].
  - exists ms. split; [apply Hk; [lia | done] | by eapply clauses_at_keeps].
  - exists so. split; [apply Hk; [lia | done] | by eapply clauses_at_keeps].
Qed.

(** X10. Builders made by [new QueryBuilder()] share nothing.  With a first
    builder taken through [cs1], a second one made and taken through [cs2],
    and the first then taken through [cs1'], each holds the document its own
    calls alone build: the calls on the second have not changed the first,
    nor the later calls on the first the second. *)
Theorem new_builders_share_nothing (h0 : list obj) cs1 cs2 cs1' :
  exists t1 t2,
    built [] (cs1 ++ cs1') = Some t1 /\
    built [] cs2 = Some t2 /\
    documents_of (two_builders cs1 cs2 cs1' h0) = Some (t1, t2).
Proof.
  exists (to_tree (after (cs1 ++ cs1'))), (to_tree (after cs2)).
  split; [apply built_after | split; [apply built_after |]].
  destruct (newBuilder_frame h0 cs1) as (h1 & Hrun1 & Hrep1 & _).
  destruct (newBuilder_frame h1 cs2) as (h2 & Hrun2 & Hrep2 & Hf2).
  assert (represents (length h0) (after cs1) h2) as Hrep1'.
  { eapply represents_keeps; [| exact Hrep1]. intros l o _. apply Hf2. }
  destruct (chain_represents_frame (length h0) cs1' (after cs1) h2
              {| queryObject := VRef (length h0 + 5) |} Hrep1' eq_refl)
    as (h3 & Hrun3 & Hrep3 & Hf3).
  assert (represents (length h1) (after cs2) h3) as Hrep2'.
  { eapply represents_keeps_above; [| exact Hrep2].
    intros l o Hl. apply Hf3. right.
    pose proof (rep_length _ _ _ Hrep1). lia. }
  unfold two_builders, bind. rewrite Hrun1, Hrun2, Hrun3.
  unfold ret, documents_of. cbn [queryObject].
  rewrite (snapshot_represents _ _ _ Hrep3), (snapshot_represents _ _ _ Hrep2').
  unfold after. by rewrite fold_left_app.
Qed.

(** ** What no mutator does *)

Lemma grows_refl o : grows o o.
Proof. split; [done | split; [done | split; [done | done]]]. Qed.

Lemma grows_trans o1 o2 o3 : grows o1 o2 -> grows o2 o3 -> grows o1 o3.
Proof.
  intros (A1 & B1 & C1 & D1) (A2 & B2 & C2 & D2).
  split; [congruence |]. split; [by etrans |]. split; [auto |].
  intros k Hk. rewrite D2, D1; auto.
Qed.

Lemma grows_with_prop k x o : setter_key k -> grows o (with_prop k x o).
Proof.
  intros Hk. split; [by destruct o |]. split; [by destruct o |].
  rewrite own_props_with_prop. split.
  - intros k' Hs. destruct (String.eqb k' k) eqn:E.
    + apply String.eqb_eq in E as ->. rewrite assoc_set_prop_eq. eauto.
    + by rewrite assoc_set_prop_ne.
  - intros k' Hk'. apply assoc_set_prop_ne. apply String.eqb_neq.
    by intros ->.
Qed.

Lemma invoke_grows c this (h : list obj) l o :
  wf_heap h = true -> wf_val (length h) (queryObject this) = true ->
  h !! l = Some o ->
  exists o', snd (invoke c this h) !! l = Some o' /\ grows o o'.
Proof.
  intros Hwf Hv Hl.
  destruct (receiver h (queryObject this) (designated c)) as [a |] eqn:Hr.
  - destruct (invoke_ok c this h a Hr) as (h' & oa & Hrun & Ha & Hframe & Heff).
    rewrite Hrun. cbn [snd].
    destruct (decide (l = a)) as [-> | Hne].
    + rewrite Ha in Hl. injection Hl as ->.
      unfold effect in Heff. destruct (clause_of c) as [cl |].
      * destruct Heff as (es & ps & r & -> & Hh' & _).
        exists (Arr (es ++ [r]) ps). split; [done |].
        split; [done |]. split; [by apply prefix_app_r | done].
      * destruct (setting_of c) as [[k n] |] eqn:Hs; [| done]. subst h'.
        exists (with_prop k (VNumber n) o). split.
        -- apply list_lookup_insert_eq. by apply lookup_lt_Some in Ha.
        -- apply grows_with_prop. by eapply setting_key.
    + exists o. split; [by apply Hframe | apply grows_refl].
  - destruct (invoke_fails c this h Hwf Hv Hr) as (h' & Hrun & Hkeep).
    rewrite Hrun. cbn [snd]. exists o.
    split; [apply Hkeep; [lia | done] | apply grows_refl].
Qed.

(** X11. No chain of mutator calls removes anything.  Run on any document,
    to the end or up to an exception, it leaves every object that existed
    before in place, an array still an array and an object an object, with
    its old elements first and in their order, with every property it had,
    and with the old value of every property other than
    [minimum_should_match], [size] and [from]. *)
Theorem chains_only_add (cs : list call) :
  forall this (h : list obj) l o,
    wf_heap h = true -> wf_val (length h) (queryObject this) = true ->
    h !! l = Some o ->
    exists o', snd (chain cs this h) !! l = Some o' /\ grows o o'.
Proof.
  induction cs as [| c cs IH]; intros this h l o Hwf Hv Hl.
  - exists o. split; [done | apply grows_refl].
  - destruct (invoke_grows c this h l o Hwf Hv Hl) as (o1 & Hl1 & Hg1).
    destruct (invoke_sound (length h) c this Hv h (le_n _) Hwf)
      as (Hwf1 & Hlen1 & Hres).
    cbn [chain]. unfold bind.
    destruct (invoke c this h) as [[b | e] h1]; cbn [fst snd] in *.
    + rewrite (Hres b eq_refl).
      destruct (IH this h1 l o1 Hwf1) as (o' & Hl' & Hg'); [| done |].
      * eapply wf_val_mono; [exact Hlen1 | exact Hv].
      * exists o'. split; [done | by eapply grows_trans].
    + by exists o1.
Qed.

Lemma chains_only_add_witness :
  exists o',
    snd (chain [CshouldTerm "a" "b"; Csort "rank" None; Csize None]
           builder_without_sort heap_without_sort) !! 0 = Some o' /\
    grows (Arr [] []) o'.
Proof.
  apply (chains_only_add [CshouldTerm "a" "b"; Csort "rank" None; Csize None]
           builder_without_sort heap_without_sort 0 (Arr [] []));
    reflexivity.
Defined.













(** X13. An exception does not spoil the builder.  When a call fails because
    the document lacks what it writes to, a later call whose receiver the
    document has still finds it, unchanged, and succeeds with its usual
    effect, as if the failed call had not been made. *)
Theorem a_failed_call_leaves_the_builder_usable
    c c' this (h : list obj) a :
  wf_heap h = true -> wf_val (length h) (queryObject this) = true ->
  receiver h (queryObject this) (designated c) = None ->
  receiver h (queryObject this) (designated c') = Some a ->
  exists h1 h2 o,
    invoke c this h = (Throw TypeError, h1) /\
    h !! a = Some o /\ h1 !! a = Some o /\
    invoke c' this h1 = (Normal this, h2) /\
    effect c' h1 a o h2.
Proof.
  intros Hwf Hv Hnone Hsome.
  destruct (invoke_fails c this h Hwf Hv Hnone) as (h1 & Hrun & Hkeep).
  destruct (invoke_ok c' this h a Hsome) as (_ & o & _ & Ha & _ & _).
  pose proof (receiver_grows h h1 _ _ a Hkeep Hsome) as Hsome1.
  destruct (invoke_ok c' this h1 a Hsome1) as (h2 & o1 & Hrun2 & Ha1 & _ & Heff).
  assert (h1 !! a = Some o) as Ha' by (apply Hkeep; [lia | done]).
  rewrite Ha' in Ha1. injection Ha1 as <-.
  by exists h1, h2, o.
Qed.

Lemma a_failed_call_leaves_the_builder_usable_witness :
  exists h1 h2 o,
    invoke (Csort "rank" None) builder_without_sort heap_without_sort =
      (Throw TypeError, h1) /\
    heap_without_sort !! 1 = Some o /\ h1 !! 1 = Some o /\
    invoke (CofType "user") builder_without_sort h1 =
      (Normal builder_without_sort, h2) /\
    effect (CofType "user") h1 1 o h2.
Proof.
  apply (a_failed_call_leaves_the_builder_usable (Csort "rank" None)
           (CofType "user") builder_without_sort heap_without_sort 1);
    reflexivity.
Defined.

(** ** Chains on a supplied document *)

Lemma clause_at_weaken z z' (h : list obj) v c :
  z' <= z -> clause_at z h v c -> clause_at z' h v c.
Proof.
  intros Hz. destruct c as [kind k x | ts]; cbn.
  - intros (l & li & -> & Hli & Hlt & H1 & H2).
    exists l, li. split; [done |]. split; [lia | done].
  - intros (l & lb & ls & rs & -> & Hls & Hrest).
    exists l, lb, ls, rs. split; [done |]. split; [lia | done].
Qed.

Lemma pushed_snoc (h : list obj) this a cs c :
  pushed h this a (cs ++ [c]) =
  pushed h this a cs ++
  if bool_decide (receiver h (queryObject this) (designated c) = Some a)
  then match clause_of c with Some cl => [cl] | None => [] end
  else [].
Proof.
  unfold pushed. rewrite List.filter_app, omap_app. f_equal.
  cbn [List.filter]. case_bool_decide; [| done].
  cbn. by destruct (clause_of c).
Qed.

Lemma receiver_lt (h : list obj) v f a : receiver h v f = Some a -> a < length h.
Proof.
  intros Hr.
  destruct (invoke_ok (match f with
                       | Should => CshouldTerm "k" "v"
                       | Must => CmustTerm "k" "v"
                       | MinimumShouldMatch => CminimumShouldMatch 0
                       | Sort => Csort "k" None
                       | Size => Csize None
                       | From => Cfrom None
                       end) {| queryObject := v |} h a)
    as (_ & o & _ & Ha & _); [by destruct f |].
  by apply lookup_lt_Some in Ha.
Qed.

Lemma chain_pushes cs :
  forall this (h : list obj) a es ps,
    wf_heap h = true -> wf_val (length h) (queryObject this) = true ->
    Forall (fun c => receiver h (queryObject this) (designated c) <> None) cs ->
    h !! a = Some (Arr es ps) ->
    exists h' rs ps',
      chain cs this h = (Normal this, h') /\
      h' !! a = Some (Arr (es ++ rs) ps') /\
      Forall2 (clause_at (length h) h') rs (pushed h this a cs).
Proof.
  induction cs as [| c cs IH] using rev_ind; intros this h a es ps Hwf Hv Hcs Ha.
  - exists h, [], ps. rewrite app_nil_r. split; [done |]. split; [done | constructor].
  - apply Forall_app in Hcs as [Hcs Hc]. apply (proj1 (Forall_singleton _ _)) in Hc.
    destruct (IH this h a es ps Hwf Hv Hcs Ha) as (h1 & rs & ps1 & Hrun1 & Ha1 & Hrs).
    destruct (chain_runs cs this h Hwf Hv Hcs) as (h1' & Hrun1' & _ & Hlen1 & Hrecv).
    rewrite Hrun1 in Hrun1'. injection Hrun1' as <-.
    destruct (receiver h (queryObject this) (designated c)) as [ac |] eqn:Hac;
      [| congruence].
    pose proof (receiver_lt _ _ _ _ Hac) as Hlt.
    rewrite <- Hrecv in Hac.
    destruct (invoke_ok c this h1 ac Hac) as (h2 & o & Hrun & Ho & Hframe & Heff).
    assert (keeps (length h) h1 h2) as Hkeep.
    { intros l o' Hl Hlo. apply Hframe; [lia | done]. }
    assert (chain (cs ++ [c]) this h = (Normal this, h2)) as Hrun2.
    { rewrite chain_app. unfold bind. rewrite Hrun1. cbn [chain]. unfold bind.
      by rewrite Hrun. }
    pose proof (clauses_at_keeps _ _ _ _ _ Hkeep Hrs) as Hrs2.
    rewrite pushed_snoc. rewrite Hrecv in Hac. rewrite Hac.
    exists h2. case_bool_decide as Heq.
    + injection Heq as ->. rewrite Ha1 in Ho. injection Ho as <-.
      unfold effect in Heff. destruct (clause_of c) as [cl |].
      * destruct Heff as (es' & ps' & r & [= <- <-] & Ha2 & Hcl).
        exists (rs ++ [r]), ps1. split; [done |].
        split; [by rewrite app_assoc |].
        apply Forall2_app; [done |]. constructor; [| constructor].
        eapply clause_at_weaken; [| exact Hcl]. lia.
      * destruct (setting_of c) as [[k n] |]; [| done]. subst h2.
        exists rs, (set_prop k (VNumber n) ps1). split; [done |].
        rewrite app_nil_r. split; [| done].
        apply list_lookup_insert_eq. by apply lookup_lt_Some in Ha1.
    + exists rs, ps1. split; [done |]. rewrite app_nil_r. split; [| done].
      apply Hframe; [| done]. by intros ->.
Qed.

(** X14. On a supplied document that has what the calls of a chain write to,
    the chain runs to the end, and every array of the document then holds
    the elements it had, in place, followed by one clause for each call of
    the chain whose list that array is, in call order; an array that is the
    list of no call keeps its elements.  This holds as well when the
    document uses one array for two of the lists. *)
Theorem chain_appends_to_supplied_lists cs this (h : list obj) a es ps :
  wf_heap h = true -> wf_val (length h) (queryObject this) = true ->
  Forall (fun c => receiver h (queryObject this) (designated c) <> None) cs ->
  h !! a = Some (Arr es ps) ->
  exists h' rs ps',
    chain cs this h = (Normal this, h') /\
    h' !! a = Some (Arr (es ++ rs) ps') /\
    Forall2 (fun r cl => snapshot h' r = Normal (clause_tree cl))
      rs (pushed h this a cs).
Proof.
  intros Hwf Hv Hcs Ha.
  destruct (chain_pushes cs this h a es ps Hwf Hv Hcs Ha)
    as (h' & rs & ps' & Hrun & Ha' & Hrs).
  exists h', rs, ps'. split; [done |]. split; [done |].
  eapply Forall2_impl; [exact Hrs |].
  intros r cl Hcl. by eapply snapshot_clause.
Qed.

Lemma chain_appends_to_supplied_lists_witness :
  exists h' rs ps',
    chain [CshouldTerm "a" "b"; Csize None; CofType "user"]
      builder_without_sort heap_without_sort =
      (Normal builder_without_sort, h') /\
    h' !! 1 = Some (Arr ([] ++ rs) ps') /\
    Forall2 (fun r cl => snapshot h' r = Normal (clause_tree cl))
      rs (pushed heap_without_sort builder_without_sort 1
            [CshouldTerm "a" "b"; Csize None; CofType "user"]).
Proof.
  apply (chain_appends_to_supplied_lists
           [CshouldTerm "a" "b"; Csize None; CofType "user"]
           builder_without_sort heap_without_sort 1 [] []);
    [ reflexivity | reflexivity
    | repeat (constructor; [vm_compute; discriminate |]); constructor
    | reflexivity ].
Defined.

End Further.
